(** * Index normalisation of pyomo.common.indexing

    A shallow embedding of [normalize_index] (pyomo/common/indexing.py) and
    of the two module-level type sets it consults and extends, followed by
    the properties of the flattening loop. *)

From stdpp Require Import gmap strings list.

Set Warnings "-register-all,-clear-no-such-hyp".

(** ** Classes

    A class object is identified by its name; the two flags record what the
    interpreter answers to [issubclass(cls, collections.abc.Sequence)] and to
    [issubclass(cls, str)], the only two questions the source asks of a
    class besides set membership. *)

Record pyclass : Type := PyClass {
  cls_name : string;
  cls_is_Sequence : bool;
  cls_is_str : bool
}.

#[global] Instance pyclass_eq_dec : EqDecision pyclass.
Proof. solve_decision. Defined.

#[global] Instance pyclass_countable : Countable pyclass.
Proof.
  refine (inj_countable'
            (fun c => (cls_name c, cls_is_Sequence c, cls_is_str c))
            (fun t => PyClass t.1.1 t.1.2 t.2) _).
  by intros [].
Defined.

Definition int_t : pyclass := PyClass "int" false false.
Definition float_t : pyclass := PyClass "float" false false.
Definition str_t : pyclass := PyClass "str" true true.
Definition tuple_t : pyclass := PyClass "tuple" true false.
Definition list_t : pyclass := PyClass "list" true false.

(** ** Values and exceptions *)

Inductive exn : Type :=
| TypeError
| IndexError
| Raised (msg : string).

Inductive result (A : Type) : Type :=
| Ok (a : A)
| Raise (e : exn).
Arguments Ok {A} a.
Arguments Raise {A} e.

(** [Atom]: an object with neither [__len__] nor [__iter__] (a number,
    [None], a plain user object).
    [Str]: an instance of [str] or of a class derived from it.
    [Seq]: a tuple, a list, or an instance of another container class whose
    [__len__] and [__iter__] agree with [items].
    [Obj]: an instance of a user class with its own [__len__] and
    [__iter__], each of which returns or raises independently. *)
Inductive value : Type :=
| Atom (cls : pyclass) (payload : Z)
| Str (cls : pyclass) (s : string)
| Seq (cls : pyclass) (items : list value)
| Obj (cls : pyclass) (len : result nat) (iter : result (list value)).

(** [v.__class__] *)
Definition class_of (v : value) : pyclass :=
  match v with
  | Atom c _ | Str c _ | Seq c _ | Obj c _ _ => c
  end.

(** [len(v)] *)
Definition py_len (v : value) : result nat :=
  match v with
  | Atom _ _ => Raise TypeError
  | Str _ s => Ok (String.length s)
  | Seq _ items => Ok (length items)
  | Obj _ len _ => len
  end.

(** Iterating a string yields its characters, each a [str] of length one. *)
Fixpoint chars (s : string) : list value :=
  match s with
  | EmptyString => []
  | String a s' => Str str_t (String a EmptyString) :: chars s'
  end.

(** [tuple(v)] *)
Definition py_tuple (v : value) : result (list value) :=
  match v with
  | Atom _ _ => Raise TypeError
  | Str _ s => Ok (chars s)
  | Seq _ items => Ok items
  | Obj _ _ iter => iter
  end.

(** ** Module state

    [native_types] is the set imported from pyomo.common.numeric_types,
    [sequence_types] the set defined in this module, and [flatten] the
    attribute [normalize_index.flatten]. *)

Record globals : Type := Globals {
  native_types : gset pyclass;
  sequence_types : gset pyclass;
  flatten : bool
}.

Definition add_native (c : pyclass) (g : globals) : globals :=
  {| native_types := {[c]} ∪ native_types g;
     sequence_types := sequence_types g;
     flatten := flatten g |}.

Definition add_sequence (c : pyclass) (g : globals) : globals :=
  {| native_types := native_types g;
     sequence_types := {[c]} ∪ sequence_types g;
     flatten := flatten g |}.

Definition set_flatten (b : bool) (g : globals) : globals :=
  {| native_types := native_types g;
     sequence_types := sequence_types g;
     flatten := b |}.

(** Modelled from the spec: the contents of [native_types], which
    pyomo.common.numeric_types defines outside this module; the spec names
    an integer, a floating-point number and a string as pre-classified
    native. *)
Definition initial_native_types : gset pyclass :=
  {[int_t]} ∪ {[float_t]} ∪ {[str_t]}.

(** The module state once the module body has run:
    [sequence_types = {tuple, list}] and [normalize_index.flatten = True]. *)
Definition initial_globals : globals :=
  {| native_types := initial_native_types;
     sequence_types := {[tuple_t]} ∪ {[list_t]};
     flatten := true |}.

(** ** The flattening loop *)

(** The local variables [x], [x_len] and [i].  The cursor [i] starts at
    zero and is only ever incremented; [x_len] is an integer to which
    [len(x[i]) - 1] is added. *)
Record frame : Type := Frame {
  x : list value;
  x_len : Z;
  i : nat
}.

#[local] Coercion Z.of_nat : nat >-> Z.

(** [x_len += len(x[i]) - 1; x = x[:i] + tuple(x[i]) + x[i + 1:]] *)
Definition splice (f : frame) (xi : value) : result frame :=
  match py_len xi with
  | Raise e => Raise e
  | Ok n =>
      match py_tuple xi with
      | Raise e => Raise e
      | Ok items =>
          Ok {| x := take (i f) (x f) ++ items ++ drop (S (i f)) (x f);
                x_len := (x_len f + n - 1)%Z;
                i := i f |}
      end
  end.

(** [i += 1] *)
Definition advance (f : frame) : frame :=
  {| x := x f; x_len := x_len f; i := S (i f) |}.

(** One execution of the body of [while i < x_len]. *)
Definition loop_body (f : frame) (g : globals) : result frame * globals :=
  match x f !! i f with
  | None => (Raise IndexError, g)
  | Some xi =>
      let _xi_class := class_of xi in
      if decide (_xi_class ∈ native_types g) then
        (Ok (advance f), g)
      else if decide (_xi_class ∈ sequence_types g) then
        (splice f xi, g)
      else if cls_is_Sequence _xi_class then
        if cls_is_str _xi_class then
          (Ok (advance f), add_native _xi_class g)
        else
          (splice f xi, add_sequence _xi_class g)
      else
        (Ok (advance f), g)
  end.

(** [while i < x_len: ...], with [None] when [fuel] iterations did not
    reach the exit. *)
Fixpoint while_loop (fuel : nat) (f : frame) (g : globals)
  : option (result frame * globals) :=
  if decide (i f < x_len f)%Z then
    match fuel with
    | 0 => None
    | S fuel' =>
        match loop_body f g with
        | (Ok f', g') => while_loop fuel' f' g'
        | (Raise e, g') => Some (Raise e, g')
        end
    end
  else Some (Ok f, g).

(** The two [return] statements after the loop. *)
Definition finish (f : frame) : result value :=
  if decide (x_len f = 1%Z) then
    match x f !! 0 with
    | Some v => Ok v
    | None => Raise IndexError
    end
  else Ok (Seq tuple_t (x f)).

(** The statements before the loop, for a value whose class is not native. *)
Definition enter (v : value) (g : globals) : result frame :=
  match
    (if decide (class_of v ∈ sequence_types g) then py_tuple v else Ok [v])
  with
  | Raise e => Raise e
  | Ok xs => Ok {| x := xs; x_len := length xs; i := 0 |}
  end.

Definition normalize_index (fuel : nat) (v : value) (g : globals)
  : option (result value * globals) :=
  if decide (class_of v ∈ native_types g) then Some (Ok v, g)
  else
    match enter v g with
    | Raise e => Some (Raise e, g)
    | Ok f =>
        match while_loop fuel f g with
        | None => None
        | Some (Raise e, g') => Some (Raise e, g')
        | Some (Ok f', g') => Some (finish f', g')
        end
    end.

Definition int (n : Z) : value := Atom int_t n.
Definition str (s : string) : value := Str str_t s.
Definition tuple (l : list value) : value := Seq tuple_t l.
Definition pylist (l : list value) : value := Seq list_t l.

(** ** Specification side *)

(** The class-level decision of the loop: [true] when an element of class
    [c] is spliced, [false] when it is kept and the cursor moves on. *)
Definition splices (g : globals) (c : pyclass) : bool :=
  bool_decide (c ∉ native_types g)
  && (bool_decide (c ∈ sequence_types g)
      || (cls_is_Sequence c && negb (cls_is_str c))).

(** Flattening in the words of the spec: nested sequence elements are
    expanded recursively into one ordered sequence, depth-first and
    left-to-right; [sp] tells which classes count as sequences. *)
Fixpoint flattening (sp : pyclass → bool) (v : value) : list value :=
  match v with
  | Seq c items =>
      if sp c then flat_map (flattening sp) items else [v]
  | Obj c _ (Ok items) =>
      if sp c then flat_map (flattening sp) items else [v]
  | _ => [v]
  end.

(** The result policy of the spec: a sequence of exactly one element is
    unwrapped, any other length (zero included) stays a tuple. *)
Definition canonical (l : list value) : value :=
  match l with
  | [v] => v
  | _ => tuple l
  end.

(** A value whose structure agrees with its class: an object without a
    length is no [Sequence]; a string is an instance of a [str] class; a
    user container answers [len] and iteration consistently; and so on for
    every contained element. *)
Fixpoint well_formed (v : value) : bool :=
  match v with
  | Atom c _ => negb (cls_is_Sequence c)
  | Str c _ => cls_is_str c
  | Seq _ items => forallb well_formed items
  | Obj _ (Ok n) (Ok items) =>
      bool_decide (n = length items) && forallb well_formed items
  | Obj _ _ _ => false
  end.

(** Every class of [sequence_types] is a [Sequence] that is not a [str]:
    true of [{tuple, list}] and kept by every registration of the loop. *)
Definition globals_ok (g : globals) : bool :=
  forallb (fun c => cls_is_Sequence c && negb (cls_is_str c))
          (elements (sequence_types g)).

(** The number of loop iterations a value can cause. *)
Fixpoint weight (v : value) : nat :=
  match v with
  | Atom _ _ => 1
  | Str c s => if cls_is_str c then 1 else S (String.length s)
  | Seq _ items => S (sum_list_with weight items)
  | Obj _ _ (Ok items) => S (sum_list_with weight items)
  | Obj _ _ (Raise _) => 1
  end.

(** What is left for the loop to scan. *)
Definition remaining (f : frame) : nat :=
  sum_list_with weight (drop (i f) (x f)).

(** The frame in which the loop stops on a fully scanned tuple [l]. *)
Definition scanned (l : list value) : frame :=
  {| x := l; x_len := length l; i := length l |}.

(** [g'] has every class of [g], in the same set. *)
Definition extends (g g' : globals) : Prop :=
  native_types g ⊆ native_types g'
  ∧ sequence_types g ⊆ sequence_types g'.

(** What one execution of the loop body may do to the module state. *)
Inductive learns (g : globals) : globals → Prop :=
| learns_nothing : learns g g
| learns_native c :
    c ∉ native_types g → c ∉ sequence_types g →
    cls_is_Sequence c = true → cls_is_str c = true →
    learns g (add_native c g)
| learns_sequence c :
    c ∉ native_types g → c ∉ sequence_types g →
    cls_is_Sequence c = true → cls_is_str c = false →
    learns g (add_sequence c g).

(** The module state after any number of executions of the loop body,
    within one call or across calls. *)
Inductive evolves : globals → globals → Prop :=
| evolves_refl g : evolves g g
| evolves_step g g1 f :
    evolves g g1 → evolves g (loop_body f g1).2.

(** The frames and module states the loop passes through. *)
Inductive reaches : frame → globals → frame → globals → Prop :=
| reaches_here f g : reaches f g f g
| reaches_step f g f1 g1 f2 g2 :
    (i f < x_len f)%Z →
    loop_body f g = (Ok f1, g1) →
    reaches f1 g1 f2 g2 →
    reaches f g f2 g2.

(** ** Examples of classes and values used below *)

(** A user container deriving from [collections.abc.Sequence]. *)
Definition Path_t : pyclass := PyClass "Path" true false.
(** A user class deriving from [str]. *)
Definition Label_t : pyclass := PyClass "Label" true true.
(** A user class that defines [__len__] and a raising [__getitem__]
    without deriving from [Sequence]. *)
Definition Half_t : pyclass := PyClass "Half" false false.
(** A user class deriving from [Sequence] whose [__getitem__] raises. *)
Definition Bad_t : pyclass := PyClass "Bad" true false.

Definition half : value := Obj Half_t (Ok 2) (Raise (Raised "no item")).
Definition bad : value := Obj Bad_t (Ok 2) (Raise (Raised "no item")).

(** ** [flatten_tuple]

    [issubclass_tuple c] is what the interpreter answers to
    [issubclass(c, tuple)], the question behind [isinstance(x, tuple)]. *)

Definition flatten_tuple (issubclass_tuple : pyclass → bool)
    (fuel : nat) (v : value) (g : globals)
  : option (result value * globals) :=
  match normalize_index fuel v g with
  | Some (Ok w, g') =>
      if issubclass_tuple (class_of w) then Some (Ok w, g')
      else Some (Ok (Seq tuple_t [w]), g')
  | other => other
  end.

(** The only subclass of [tuple] is [tuple] itself. *)
Definition only_tuple (c : pyclass) : bool := bool_decide (c = tuple_t).

(** ** The effect of a call on the module state *)

(** What the loop body does to the module state when it meets an element
    of class [c]. *)
Definition register (c : pyclass) (g : globals) : globals :=
  if decide (c ∈ native_types g) then g
  else if decide (c ∈ sequence_types g) then g
  else if cls_is_Sequence c then
    if cls_is_str c then add_native c g else add_sequence c g
  else g.

Definition register_all (l : list pyclass) (g : globals) : globals :=
  foldl (fun h c => register c h) g l.

(** The classes of the elements the loop looks at, in the order in which
    it looks at them: an element, then, when it is spliced, its items. *)
Fixpoint visited (sp : pyclass → bool) (v : value) : list pyclass :=
  class_of v ::
  match v with
  | Seq c items => if sp c then flat_map (visited sp) items else []
  | Obj c _ (Ok items) => if sp c then flat_map (visited sp) items else []
  | _ => []
  end.

(** A user container whose [__len__] answers more than it holds. *)
Definition Long_t : pyclass := PyClass "Long" true false.
Definition long : value := Obj Long_t (Ok 3) (Ok [int 1; int 2]).

(** ** setup.py *)

(** [p in s] for two strings. *)
Fixpoint contains (p s : string) : bool :=
  String.prefix p s
  || match s with
     | EmptyString => false
     | String _ s' => contains p s'
     end.

(** [README.readline()] on a file given as the list of its lines, each
    with its line end: the next line, or [''] at the end of the file. *)
Definition readline (README : list string) : string * list string :=
  match README with
  | [] => (EmptyString, [])
  | line :: rest => (line, rest)
  end.

(** [read]: the file is the list of its lines, [strip] is [str.strip], and
    [README.read()] is what is left of the file in one string.  [None]
    when [fuel] iterations of [while True] met no [break]. *)
Fixpoint read (strip : string → string) (fuel : nat) (README : list string)
  : option string :=
  match fuel with
  | 0 => None
  | S fuel' =>
      let (line, rest) := readline README in
      if contains "COIN-OR" line then
        Some (line +:+ String.concat "" rest)
      else if negb (String.eqb (strip line) "")
              && negb (contains "[![" line) then
        Some (line +:+ String.concat "" rest)
      else read strip fuel' rest
  end.

(** The test of the two [break]s of [read]. *)
Definition breaks (strip : string → string) (line : string) : bool :=
  contains "COIN-OR" line
  || (negb (String.eqb (strip line) "") && negb (contains "[![" line)).

(** [list.remove(name)] where [name] is in the list: the first occurrence
    goes. *)
Fixpoint remove_first (name : string) (l : list string) : list string :=
  match l with
  | [] => []
  | a :: l' => if decide (a = name) then l' else a :: remove_first name l'
  end.

(** [check_config_arg]: [argv] is [sys.argv], [env_args] is
    [os.getenv('PYOMO_SETUP_ARGS', '').split()]; the result is the value
    returned and [sys.argv] afterwards. *)
Definition check_config_arg (env_args : list string) (name : string)
    (argv : list string) : bool * list string :=
  if decide (name ∈ argv) then (true, remove_first name argv)
  else if decide (name ∈ env_args) then (true, argv)
  else (false, argv).

(** The values of [using_cython]: [False], ["automatic"] and
    [CYTHON_REQUIRED]. *)
Inductive cython_mode : Type :=
| CythonOff
| CythonAutomatic
| CythonRequired.

(** [any(arg.startswith(cmd) for cmd in ('build', 'install', 'bdist',
    'wheel') for arg in sys.argv)] *)
Definition names_build_command (argv : list string) : bool :=
  existsb (fun cmd => existsb (fun arg => String.prefix cmd arg) argv)
          ["build"; "install"; "bdist"; "wheel"].

(** [sys.version_info[:2] < (3, 11)] *)
Definition before_3_11 (version : nat * nat) : bool :=
  (version.1 <? 3) || ((version.1 =? 3) && (version.2 <? 11)).

(** The module-level statements that set [using_cython], with [sys.argv]
    as they leave it. *)
Definition choose_cython (version : nat * nat) (env_args argv : list string)
  : cython_mode * list string :=
  let using_cython :=
    if negb (names_build_command argv) then CythonOff
    else if before_3_11 version then CythonAutomatic
    else CythonOff in
  let (with_cython, argv1) := check_config_arg env_args "--with-cython" argv in
  let using_cython := if with_cython then CythonRequired else using_cython in
  let (without_cython, argv2) :=
    check_config_arg env_args "--without-cython" argv1 in
  let using_cython := if without_cython then CythonOff else using_cython in
  (using_cython, argv2).

(** An approximation of [str.strip] good for plain text: leading and
    trailing blanks, tabs and line ends go. *)
Definition is_blank (a : Ascii.ascii) : bool :=
  bool_decide (Ascii.nat_of_ascii a ∈ [32; 9; 10; 13]).

Fixpoint lstrip (s : string) : string :=
  match s with
  | String a s' => if is_blank a then lstrip s' else s
  | EmptyString => EmptyString
  end.

Definition ascii_strip (s : string) : string :=
  String.rev (lstrip (String.rev (lstrip s))).

(** * Properties *)

(** ** The module state under one loop iteration *)

Lemma globals_ok_spec g :
  globals_ok g = true ↔
  ∀ c, c ∈ sequence_types g → cls_is_Sequence c = true ∧ cls_is_str c = false.
Proof.
  unfold globals_ok. rewrite forallb_forall. split.
  - intros H c Hc. specialize (H c).
    rewrite <- list_elem_of_In, elem_of_elements in H.
    apply H in Hc. apply andb_true_iff in Hc as [? ?].
    split; [done | by apply negb_true_iff].
  - intros H c Hc. rewrite <- list_elem_of_In, elem_of_elements in Hc.
    destruct (H c Hc) as [-> ->]. done.
Qed.

Lemma loop_body_keep f g xi :
  x f !! i f = Some xi → splices g (class_of xi) = false →
  ∃ g', loop_body f g = (Ok (advance f), g') ∧ learns g g'.
Proof.
  intros Hxi Hsp. unfold loop_body, splices in *. rewrite Hxi. cbn zeta.
  destruct (decide (class_of xi ∈ native_types g)) as [Hn|Hn].
  { eexists; split; [done | constructor]. }
  rewrite (bool_decide_eq_true_2 _ Hn) in Hsp. cbn in Hsp.
  destruct (decide (class_of xi ∈ sequence_types g)) as [Hs|Hs].
  { by rewrite (bool_decide_eq_true_2 _ Hs) in Hsp. }
  rewrite (bool_decide_eq_false_2 _ Hs) in Hsp. cbn in Hsp.
  destruct (cls_is_Sequence (class_of xi)) eqn:HS; cbn in Hsp.
  - destruct (cls_is_str (class_of xi)) eqn:Hstr; [|done].
    eexists; split; [done | by apply learns_native].
  - eexists; split; [done | constructor].
Qed.

Lemma loop_body_splice f g xi :
  x f !! i f = Some xi → splices g (class_of xi) = true →
  ∃ g', loop_body f g = (splice f xi, g') ∧ learns g g'.
Proof.
  intros Hxi Hsp. unfold loop_body, splices in *. rewrite Hxi. cbn zeta.
  apply andb_true_iff in Hsp as [Hn Hsp]. apply bool_decide_eq_true_1 in Hn.
  rewrite (decide_False _ _ Hn).
  destruct (decide (class_of xi ∈ sequence_types g)) as [Hs|Hs].
  { eexists; split; [done | constructor]. }
  rewrite (bool_decide_eq_false_2 _ Hs) in Hsp. cbn in Hsp.
  apply andb_true_iff in Hsp as [HS Hstr]. apply negb_true_iff in Hstr.
  rewrite HS, Hstr. eexists; split; [done | by apply learns_sequence].
Qed.

Lemma loop_body_learns f g r g' : loop_body f g = (r, g') → learns g g'.
Proof.
  intros H. destruct (x f !! i f) as [xi|] eqn:Hxi.
  - destruct (splices g (class_of xi)) eqn:Hsp.
    + destruct (loop_body_splice f g xi Hxi Hsp) as (g1 & Hb & Hl). congruence.
    + destruct (loop_body_keep f g xi Hxi Hsp) as (g1 & Hb & Hl). congruence.
  - unfold loop_body in H. rewrite Hxi in H. inversion H. constructor.
Qed.

(** Closes [learns g (loop_body f g).2]. *)
Ltac body_learns := eapply loop_body_learns; apply surjective_pairing.

Lemma learns_extends g g' : learns g g' → extends g g'.
Proof. intros [| |]; split; cbn; set_solver. Qed.

Lemma learns_disjoint g g' :
  learns g g' →
  native_types g ## sequence_types g → native_types g' ## sequence_types g'.
Proof. intros [|c Hn Hs _ _|c Hn Hs _ _]; cbn; set_solver. Qed.

Lemma learns_globals_ok g g' :
  learns g g' → globals_ok g = true → globals_ok g' = true.
Proof.
  rewrite !globals_ok_spec. intros [|c Hn Hs HS Hstr|c Hn Hs HS Hstr] Hok; cbn; try done.
  intros c' [->%elem_of_singleton|?]%elem_of_union; eauto.
Qed.

Lemma learns_splices g g' c : learns g g' → splices g' c = splices g c.
Proof.
  intros [|c0 Hn Hs HS Hstr|c0 Hn Hs HS Hstr]; [done| |]; unfold splices; cbn.
  - destruct (decide (c = c0)) as [->|Hne].
    + rewrite HS, Hstr, (bool_decide_eq_false_2 (c0 ∈ sequence_types g)) by done.
      rewrite bool_decide_eq_false_2 by set_solver. cbn. by rewrite andb_false_r.
    + rewrite (bool_decide_ext (c ∉ {[c0]} ∪ native_types g) (c ∉ native_types g))
        by set_solver. done.
  - destruct (decide (c = c0)) as [->|Hne].
    + rewrite HS, Hstr, (bool_decide_eq_true_2 (c0 ∈ {[c0]} ∪ sequence_types g))
        by set_solver.
      cbn. by rewrite orb_true_r.
    + rewrite (bool_decide_ext (c ∈ {[c0]} ∪ sequence_types g) (c ∈ sequence_types g))
        by set_solver. done.
Qed.

Lemma learns_flatten g g' : learns g g' → flatten g' = flatten g.
Proof. by intros []. Qed.

Lemma extends_refl g : extends g g.
Proof. by split. Qed.

Lemma extends_trans g1 g2 g3 : extends g1 g2 → extends g2 g3 → extends g1 g3.
Proof. unfold extends. set_solver. Qed.

(** ** Unfolding the loop *)

Lemma while_loop_exit n f g :
  ¬ (i f < x_len f)%Z → while_loop n f g = Some (Ok f, g).
Proof. intros H. destruct n; cbn; by rewrite decide_False. Qed.

Lemma while_loop_step n f g :
  (i f < x_len f)%Z →
  while_loop (S n) f g =
  match loop_body f g with
  | (Ok f', g') => while_loop n f' g'
  | (Raise e, g') => Some (Raise e, g')
  end.
Proof. intros H. cbn. by rewrite decide_True. Qed.

Lemma while_loop_fuel_mono n m f g r :
  while_loop n f g = Some r → n ≤ m → while_loop m f g = Some r.
Proof.
  revert m f g. induction n as [|n IH]; intros m f g Hn Hle.
  - destruct (decide (i f < x_len f)%Z) as [Hlt|Hge].
    + cbn in Hn. by rewrite decide_True in Hn.
    + rewrite while_loop_exit in Hn by done. by rewrite while_loop_exit.
  - destruct (decide (i f < x_len f)%Z) as [Hlt|Hge].
    + destruct m as [|m]; [lia|].
      rewrite while_loop_step in Hn |- * by done.
      destruct (loop_body f g) as [[f'|e] g']; [|done].
      apply IH; [done | lia].
    + rewrite while_loop_exit in Hn by done. by rewrite while_loop_exit.
Qed.

Lemma while_loop_evolves n f g r g' :
  while_loop n f g = Some (r, g') → evolves g g'.
Proof.
  assert (Hgen : ∀ g0, evolves g0 g → while_loop n f g = Some (r, g') →
                       evolves g0 g'); [|apply Hgen; constructor].
  revert f g. induction n as [|n IH]; intros f g g0 Hev Hn.
  - destruct (decide (i f < x_len f)%Z) as [Hlt|Hge].
    + cbn in Hn. by rewrite decide_True in Hn.
    + rewrite while_loop_exit in Hn by done. by simplify_eq.
  - destruct (decide (i f < x_len f)%Z) as [Hlt|Hge].
    + rewrite while_loop_step in Hn by done.
      pose proof (evolves_step g0 g f Hev) as Hev'.
      destruct (loop_body f g) as [[f'|e] g1]; cbn in Hev'.
      * by eapply IH.
      * by simplify_eq.
    + rewrite while_loop_exit in Hn by done. by simplify_eq.
Qed.

Lemma normalize_index_evolves n v g r g' :
  normalize_index n v g = Some (r, g') → evolves g g'.
Proof.
  unfold normalize_index. case_decide.
  { intros; simplify_eq. constructor. }
  destruct (enter v g) as [f|e]; [|intros; simplify_eq; constructor].
  destruct (while_loop n f g) as [[[f'|e] g1]|] eqn:Hw; [| |done];
    intros; simplify_eq; by eapply while_loop_evolves.
Qed.

(** ** What the module state keeps while it evolves *)

Lemma evolves_extends g g' : evolves g g' → extends g g'.
Proof.
  induction 1 as [g|g g1 f _ IH]; [apply extends_refl|].
  eapply extends_trans; [exact IH|].
  apply learns_extends. body_learns.
Qed.

Lemma evolves_disjoint g g' :
  evolves g g' →
  native_types g ## sequence_types g → native_types g' ## sequence_types g'.
Proof.
  induction 1 as [g|g g1 f _ IH]; [done|]. intros Hd.
  eapply learns_disjoint; [|by apply IH].
  body_learns.
Qed.

Lemma evolves_globals_ok g g' :
  evolves g g' → globals_ok g = true → globals_ok g' = true.
Proof.
  induction 1 as [g|g g1 f _ IH]; [done|]. intros Hok.
  eapply learns_globals_ok; [|by apply IH].
  body_learns.
Qed.

Lemma evolves_splices g g' c : evolves g g' → splices g' c = splices g c.
Proof.
  induction 1 as [g|g g1 f _ IH]; [done|]. rewrite <- IH.
  apply learns_splices. body_learns.
Qed.

Lemma evolves_flatten g g' : evolves g g' → flatten g' = flatten g.
Proof.
  induction 1 as [g|g g1 f _ IH]; [done|]. rewrite <- IH.
  apply learns_flatten. body_learns.
Qed.

Lemma evolves_trans g1 g2 g3 : evolves g1 g2 → evolves g2 g3 → evolves g1 g3.
Proof. intros H12 H23. induction H23; [done|]. apply evolves_step. auto. Qed.

(** ** Values, their weight and their flattening *)

Lemma sum_weight_chars s : sum_list_with weight (chars s) = String.length s.
Proof. induction s as [|a s IH]; cbn; [done | by rewrite IH]. Qed.

Lemma weight_pos v : 0 < weight v.
Proof. destruct v as [| c ? | |? ? []]; cbn; try lia. destruct (cls_is_str c); lia. Qed.

(** Iterating an element that is no string uses up one unit of weight. *)
Lemma weight_py_tuple v items :
  py_tuple v = Ok items → cls_is_str (class_of v) = false →
  weight v = S (sum_list_with weight items).
Proof.
  destruct v as [|c s|c l|c n [l|e]]; cbn; intros H Hstr; simplify_eq; try done.
  by rewrite Hstr, sum_weight_chars.
Qed.

Lemma splices_globals_ok g c :
  globals_ok g = true → splices g c = true →
  cls_is_Sequence c = true ∧ cls_is_str c = false.
Proof.
  rewrite globals_ok_spec. unfold splices. intros Hok Hsp.
  apply andb_true_iff in Hsp as [_ Hsp].
  apply orb_true_iff in Hsp as [Hs|Hs].
  - apply bool_decide_eq_true_1 in Hs. by apply Hok.
  - apply andb_true_iff in Hs as [? ?%negb_true_iff]. done.
Qed.

(** A well-formed instance of a non-string [Sequence] class is a container. *)
Lemma well_formed_container v :
  well_formed v = true →
  cls_is_Sequence (class_of v) = true → cls_is_str (class_of v) = false →
  ∃ items,
    py_len v = Ok (length items) ∧ py_tuple v = Ok items
    ∧ Forall (fun w => well_formed w = true) items
    ∧ ∀ sp, sp (class_of v) = true →
            flattening sp v = flat_map (flattening sp) items.
Proof.
  destruct v as [c z|c s|c l|c [n|e] [l|e']]; cbn; intros Hwf HS Hstr;
    try congruence.
  - by rewrite HS in Hwf.
  - exists l. repeat split; [|by intros sp ->].
    apply Forall_forall. intros w Hw.
    rewrite forallb_forall in Hwf. apply Hwf. by apply list_elem_of_In.
  - apply andb_true_iff in Hwf as [Hn Hwf]. apply bool_decide_eq_true_1 in Hn.
    subst n. exists l. repeat split; [|by intros sp ->].
    apply Forall_forall. intros w Hw.
    rewrite forallb_forall in Hwf. apply Hwf. by apply list_elem_of_In.
Qed.

Lemma flattening_keep sp v : sp (class_of v) = false → flattening sp v = [v].
Proof. destruct v as [| | |? ? []]; cbn; intros H; by rewrite ?H. Qed.

Lemma flat_map_fixed (sp : pyclass → bool) (l : list value) :
  Forall (fun e => flattening sp e = [e]) l → flat_map (flattening sp) l = l.
Proof. induction 1 as [|e l He _ IH]; cbn; [done|]. by rewrite He, IH. Qed.

(** Every element of a flattening is its own flattening. *)
Lemma flattening_fixed sp v :
  Forall (fun e => flattening sp e = [e]) (flattening sp v).
Proof.
  assert (Hgen : ∀ n v, weight v ≤ n →
            Forall (fun e => flattening sp e = [e]) (flattening sp v));
    [|by apply (Hgen (weight v))].
  clear v. induction n as [|n IH]; intros v Hv.
  { pose proof (weight_pos v). lia. }
  assert (Hitems : ∀ l, sum_list_with weight l ≤ n →
            Forall (fun e => flattening sp e = [e]) (flat_map (flattening sp) l)).
  { induction l as [|w l IHl]; cbn; intros Hl; [constructor|].
    apply Forall_app. split; [apply IH | apply IHl]; lia. }
  destruct v as [c z|c s|c l|c len [l|e]]; cbn in *;
    try (repeat constructor; done).
  - destruct (sp c) eqn:Hsp; [apply Hitems; lia|].
    repeat constructor. cbn. by rewrite Hsp.
  - destruct (sp c) eqn:Hsp; [apply Hitems; lia|].
    repeat constructor. cbn. by rewrite Hsp.
Qed.

(** Well-formedness is inherited by what flattening returns. *)
Lemma flattening_well_formed sp v :
  well_formed v = true →
  Forall (fun e => well_formed e = true) (flattening sp v).
Proof.
  assert (Hgen : ∀ n v, weight v ≤ n → well_formed v = true →
            Forall (fun e => well_formed e = true) (flattening sp v));
    [|by apply (Hgen (weight v))].
  clear v. induction n as [|n IH]; intros v Hv Hwf.
  { pose proof (weight_pos v). lia. }
  assert (Hitems : ∀ l, sum_list_with weight l ≤ n →
            forallb well_formed l = true →
            Forall (fun e => well_formed e = true) (flat_map (flattening sp) l)).
  { induction l as [|w l IHl]; cbn; intros Hl Hall; [constructor|].
    apply andb_true_iff in Hall as [? ?].
    apply Forall_app. split; [apply IH | apply IHl]; done || lia. }
  destruct v as [c z|c s|c l|c [m|e'] [l|e]]; cbn in *;
    try (repeat constructor; done).
  - destruct (sp c); [apply Hitems; done || lia|]. by repeat constructor.
  - destruct (sp c); [|by repeat constructor].
    apply andb_true_iff in Hwf as [_ Hwf]. apply Hitems; done || lia.
Qed.

(** ** Frames *)

Lemma remaining_lookup f xi :
  x f !! i f = Some xi → remaining f = weight xi + remaining (advance f).
Proof. intros H. unfold remaining. cbn. by rewrite (drop_S _ _ _ H). Qed.

Lemma drop_spliced (l items : list value) n :
  n < length l →
  drop n (take n l ++ items ++ drop (S n) l) = items ++ drop (S n) l.
Proof. intros H. apply drop_app_length'. rewrite length_take_le; lia. Qed.

Lemma take_spliced (l items : list value) n :
  n < length l →
  take n (take n l ++ items ++ drop (S n) l) = take n l.
Proof. intros H. apply take_app_length'. rewrite length_take_le; lia. Qed.

Lemma length_spliced (l items : list value) n :
  n < length l →
  length (take n l ++ items ++ drop (S n) l) = length l + length items - 1.
Proof.
  intros H. rewrite !length_app, length_take_le, length_drop by lia. lia.
Qed.

(** ** The loop on well-formed tuples *)

(** From any frame whose logical length is the length of [x], the loop
    leaves the scanned prefix alone and replaces what remains by its
    flattening. *)
Lemma while_loop_flattens n : ∀ f g sp,
  remaining f ≤ n →
  x_len f = length (x f) → i f ≤ length (x f) →
  Forall (fun v => well_formed v = true) (drop (i f) (x f)) →
  globals_ok g = true → (∀ c, splices g c = sp c) →
  ∃ g',
    while_loop n f g =
    Some (Ok (scanned (take (i f) (x f)
                       ++ flat_map (flattening sp) (drop (i f) (x f)))), g').
Proof.
  induction n as [|n IH]; intros f g sp Hrem Hlen Hi Hwf Hok Hsp.
  all: destruct (decide (i f < x_len f)%Z) as [Hlt|Hge].
  all: try (exists g; rewrite while_loop_exit by done;
            rewrite drop_ge, take_ge by lia; cbn; rewrite app_nil_r;
            destruct f as [l k j]; cbn in *; unfold scanned;
            repeat f_equal; lia).
  all: destruct (lookup_lt_is_Some_2 (x f) (i f)) as [xi Hxi]; [lia|].
  all: pose proof (remaining_lookup f xi Hxi) as Hr.
  all: pose proof (weight_pos xi) as Hpos.
  { lia. }
  rewrite (drop_S _ _ _ Hxi) in Hwf |- *.
  apply Forall_cons in Hwf as [Hwfi Hwfr].
  rewrite while_loop_step by done. cbn [flat_map].
  destruct (sp (class_of xi)) eqn:Hspi.
  - destruct (loop_body_splice f g xi Hxi) as (g1 & -> & Hl);
      [by rewrite Hsp|].
    destruct (splices_globals_ok g (class_of xi) Hok) as [HS Hstr];
      [by rewrite Hsp|].
    destruct (well_formed_container xi Hwfi HS Hstr)
      as (items & Hpl & Hpt & Hwfitems & Hflat).
    pose proof (weight_py_tuple xi items Hpt Hstr) as Hw.
    unfold splice. rewrite Hpl, Hpt.
    edestruct (IH {| x := take (i f) (x f) ++ items ++ drop (S (i f)) (x f);
                     x_len := (x_len f + length items - 1)%Z;
                     i := i f |} g1 sp) as [g' Hg']; cbn.
    + unfold remaining in *. cbn in *.
      rewrite drop_spliced, sum_list_with_app by lia. lia.
    + rewrite length_spliced by lia. lia.
    + rewrite length_spliced by lia. lia.
    + rewrite drop_spliced by lia. by apply Forall_app.
    + by eapply learns_globals_ok.
    + intros c. rewrite <- Hsp. by apply learns_splices.
    + exists g'. rewrite Hg'. cbn.
      rewrite take_spliced, drop_spliced by lia.
      by rewrite flat_map_app, Hflat, app_assoc.
  - destruct (loop_body_keep f g xi Hxi) as (g1 & -> & Hl);
      [by rewrite Hsp|].
    edestruct (IH (advance f) g1 sp) as [g' Hg']; cbn.
    + unfold remaining in *. cbn in *. lia.
    + done.
    + apply lookup_lt_Some in Hxi. lia.
    + done.
    + by eapply learns_globals_ok.
    + intros c. rewrite <- Hsp. by apply learns_splices.
    + exists g'. rewrite Hg'. cbn.
      rewrite (take_S_r _ _ _ Hxi), (flattening_keep sp xi Hspi).
      by rewrite <- app_assoc.
Qed.

(** ** The loop on arbitrary tuples *)

Lemma while_loop_terminates n : ∀ f g,
  globals_ok g = true → remaining f < n → is_Some (while_loop n f g).
Proof.
  induction n as [|n IH]; intros f g Hok Hrem; [lia|].
  destruct (decide (i f < x_len f)%Z) as [Hlt|Hge];
    [|by rewrite while_loop_exit].
  rewrite while_loop_step by done.
  destruct (x f !! i f) as [xi|] eqn:Hxi;
    [|unfold loop_body; by rewrite Hxi].
  pose proof (remaining_lookup f xi Hxi) as Hr.
  pose proof (weight_pos xi) as Hpos.
  destruct (splices g (class_of xi)) eqn:Hspi.
  - destruct (loop_body_splice f g xi Hxi Hspi) as (g1 & -> & Hl).
    destruct (splices_globals_ok g (class_of xi) Hok Hspi) as [HS Hstr].
    unfold splice.
    destruct (py_len xi) as [m|e]; [|done].
    destruct (py_tuple xi) as [items|e] eqn:Hpt; [|done].
    pose proof (weight_py_tuple xi items Hpt Hstr) as Hw.
    apply IH; [by eapply learns_globals_ok|].
    unfold remaining in *. cbn in *.
    rewrite drop_spliced, sum_list_with_app by (by eapply lookup_lt_Some).
    lia.
  - destruct (loop_body_keep f g xi Hxi Hspi) as (g1 & -> & Hl).
    apply IH; [by eapply learns_globals_ok|].
    unfold remaining in *. cbn in *. lia.
Qed.

(** ** The whole function *)

Lemma finish_scanned l : finish (scanned l) = Ok (canonical l).
Proof.
  unfold finish, scanned. cbn [x x_len i].
  destruct l as [|a [|b l]].
  - by rewrite decide_False by (cbn; lia).
  - by rewrite decide_True by (cbn; lia).
  - by rewrite decide_False by (cbn [length]; lia).
Qed.

Lemma normalize_index_fuel_mono n m v g r :
  normalize_index n v g = Some r → n ≤ m → normalize_index m v g = Some r.
Proof.
  unfold normalize_index. case_decide; [done|].
  destruct (enter v g) as [f|e]; [|done].
  destruct (while_loop n f g) as [r'|] eqn:Hw; [|done].
  intros Hr Hle. by rewrite (while_loop_fuel_mono n m f g r' Hw Hle).
Qed.

Lemma splices_native g c : c ∈ native_types g → splices g c = false.
Proof. intros H. unfold splices. by rewrite bool_decide_eq_false_2 by auto. Qed.

Lemma splices_sequence g c :
  c ∉ native_types g → c ∈ sequence_types g → splices g c = true.
Proof.
  intros Hn Hs. unfold splices. by rewrite !bool_decide_eq_true_2 by done.
Qed.

(** With fuel for the weight of its argument, [normalize_index] returns the
    canonical form of the flattening. *)
Lemma normalize_index_flattens fuel v g sp :
  well_formed v = true → globals_ok g = true → (∀ c, splices g c = sp c) →
  weight v ≤ fuel →
  ∃ g', normalize_index fuel v g = Some (Ok (canonical (flattening sp v)), g').
Proof.
  intros Hwf Hok Hsp Hfuel. unfold normalize_index.
  destruct (decide (class_of v ∈ native_types g)) as [Hn|Hn].
  { exists g. rewrite flattening_keep; [done|].
    rewrite <- Hsp. by apply splices_native. }
  unfold enter. destruct (decide (class_of v ∈ sequence_types g)) as [Hs|Hs].
  - pose proof (splices_sequence g _ Hn Hs) as Hspv.
    destruct (splices_globals_ok g _ Hok Hspv) as [HS Hstr].
    destruct (well_formed_container v Hwf HS Hstr)
      as (items & _ & Hpt & Hwfitems & Hflat).
    pose proof (weight_py_tuple v items Hpt Hstr) as Hw.
    rewrite Hpt.
    destruct (while_loop_flattens fuel
                {| x := items; x_len := length items; i := 0 |} g sp)
      as [g' Hg'].
    { unfold remaining. cbn. rewrite ?drop_0. lia. }
    { done. }
    { cbn. lia. }
    { cbn. by rewrite ?drop_0. }
    { done. }
    { done. }
    exists g'. rewrite Hg'. cbn [x i]. rewrite ?drop_0.
    rewrite finish_scanned, Hflat; [done|]. by rewrite <- Hsp.
  - destruct (while_loop_flattens fuel
                {| x := [v]; x_len := length [v]; i := 0 |} g sp)
      as [g' Hg'].
    { unfold remaining. cbn. rewrite ?drop_0. cbn. lia. }
    { done. }
    { cbn. lia. }
    { cbn. rewrite ?drop_0. by repeat constructor. }
    { done. }
    { done. }
    exists g'. rewrite Hg'. cbn [x i]. rewrite ?drop_0.
    cbn [take flat_map]. by rewrite finish_scanned, ?app_nil_r.
Qed.

Lemma canonical_well_formed l :
  Forall (fun e => well_formed e = true) l → well_formed (canonical l) = true.
Proof.
  intros Hl.
  assert (Hall : forallb well_formed l = true).
  { apply forallb_forall. intros e He. rewrite Forall_forall in Hl.
    apply Hl. by apply list_elem_of_In. }
  destruct l as [|a [|b l]]; cbn in *; try done.
  by rewrite andb_true_r in Hall.
Qed.

Lemma canonical_flattening_fixed sp l :
  Forall (fun e => flattening sp e = [e]) l →
  canonical (flattening sp (canonical l)) = canonical l.
Proof.
  intros Hl. destruct l as [|a [|b l]]; cbn.
  - by destruct (sp tuple_t).
  - apply Forall_cons in Hl as [-> _]. done.
  - destruct (sp tuple_t); [|done].
    change (canonical (flat_map (flattening sp) (a :: b :: l))
            = tuple (a :: b :: l)).
    by rewrite flat_map_fixed.
Qed.

(** ** Strings are self-similar

    Were [str] ever in [sequence_types] and not in [native_types], the loop
    would splice a one-character string into itself for ever. *)
Example str_in_sequence_types_loops fuel :
  normalize_index fuel (tuple [str "a"])
    {| native_types := ∅; sequence_types := {[tuple_t]} ∪ {[str_t]};
       flatten := true |}
  = None.
Proof.
  unfold normalize_index. rewrite decide_False by set_solver.
  unfold enter. rewrite decide_True by set_solver. cbn.
  induction fuel as [|fuel IH]; [done|].
  rewrite while_loop_step by (cbn; lia).
  unfold loop_body. cbn.
  rewrite decide_False by set_solver. rewrite decide_True by set_solver.
  exact IH.
Qed.

(** ** The module states that occur

    The state the module body sets up satisfies [globals_ok], and every
    call hands on a state that does. *)

Lemma globals_ok_initial : globals_ok initial_globals = true.
Proof. reflexivity. Qed.

Lemma normalize_index_globals_ok fuel v g r g' :
  normalize_index fuel v g = Some (r, g') →
  globals_ok g = true → globals_ok g' = true.
Proof. intros H. apply evolves_globals_ok. by eapply normalize_index_evolves. Qed.

(** A class learnt from the first element serves the second one within the
    same call, and a [str] subclass is learnt as native. *)
Example learning_within_one_call :
  normalize_index 9
    (tuple [Seq Path_t [int 1]; Seq Path_t [int 2]; Str Label_t "cd"])
    initial_globals
  = Some (Ok (tuple [int 1; int 2; Str Label_t "cd"]),
          add_native Label_t (add_sequence Path_t initial_globals)).
Proof. vm_compute. reflexivity. Qed.

(** * The claims *)

(** C1 — Idempotence.  For every finite, acyclic (well-formed) input [v],
    normalising the result of [normalize_index v] once more returns that
    same result: [normalize(normalize(x)) == normalize(x)].  The three calls
    of that expression return, with any fuel from some bound on, each one
    starting from the module state the call before it left. *)
Theorem normalize_index_idempotent v g :
  well_formed v = true → globals_ok g = true →
  ∃ n w g1 g2 g3, ∀ fuel, n ≤ fuel →
    normalize_index fuel v g = Some (Ok w, g1)
    ∧ normalize_index fuel w g1 = Some (Ok w, g2)
    ∧ normalize_index fuel v g2 = Some (Ok w, g3).
Proof.
  intros Hwf Hok.
  destruct (normalize_index_flattens (weight v) v g (splices g))
    as [g1 H1]; try done.
  set (w := canonical (flattening (splices g) v)) in *.
  pose proof (normalize_index_evolves _ _ _ _ _ H1) as Hev1.
  assert (Hwfw : well_formed w = true).
  { apply canonical_well_formed. by apply flattening_well_formed. }
  destruct (normalize_index_flattens (weight w) w g1 (splices g))
    as [g2 H2]; try done.
  { by eapply evolves_globals_ok. }
  { intros c. by apply evolves_splices. }
  assert (Hfix : canonical (flattening (splices g) w) = w).
  { apply canonical_flattening_fixed, flattening_fixed. }
  rewrite Hfix in H2.
  pose proof (normalize_index_evolves _ _ _ _ _ H2) as Hev2.
  pose proof (evolves_trans _ _ _ Hev1 Hev2) as Hev.
  destruct (normalize_index_flattens (weight v) v g2 (splices g))
    as [g3 H3]; try done.
  { by eapply evolves_globals_ok. }
  { intros c. by apply evolves_splices. }
  fold w in H3.
  exists (weight v `max` weight w), w, g1, g2, g3. intros fuel Hfuel.
  split; [|split].
  - eapply normalize_index_fuel_mono; [exact H1 | lia].
  - eapply normalize_index_fuel_mono; [exact H2 | lia].
  - eapply normalize_index_fuel_mono; [exact H3 | lia].
Qed.

Lemma normalize_index_idempotent_witness :
  let v := tuple [int 1; pylist [tuple [int 2; Seq Path_t [int 3]]]; str "ab"] in
  well_formed v = true ∧ globals_ok initial_globals = true
  ∧ ∃ n w g1 g2 g3, ∀ fuel, n ≤ fuel →
      normalize_index fuel v initial_globals = Some (Ok w, g1)
      ∧ normalize_index fuel w g1 = Some (Ok w, g2)
      ∧ normalize_index fuel v g2 = Some (Ok w, g3).
Proof.
  split; [reflexivity|]. split; [reflexivity|].
  apply normalize_index_idempotent; reflexivity.
Defined.

(** C2 — Flattening order.  For every finite, acyclic (well-formed) nested
    input, [normalize_index] returns the canonical form of the depth-first,
    left-to-right flattening, sibling order kept at every level; in
    particular [normalize((1, (2, 3), 4)) == (1, 2, 3, 4)] and
    [normalize((1, ((2, 3), 4), (5,))) == (1, 2, 3, 4, 5)]. *)
Theorem normalize_index_depth_first v g fuel :
  well_formed v = true → globals_ok g = true → weight v ≤ fuel →
  (∃ g', normalize_index fuel v g
         = Some (Ok (canonical (flattening (splices g) v)), g'))
  ∧ (∀ n, 5 ≤ n →
       normalize_index n (tuple [int 1; tuple [int 2; int 3]; int 4])
         initial_globals
       = Some (Ok (tuple [int 1; int 2; int 3; int 4]), initial_globals))
  ∧ (∀ n, 8 ≤ n →
       normalize_index n
         (tuple [int 1; tuple [tuple [int 2; int 3]; int 4]; tuple [int 5]])
         initial_globals
       = Some (Ok (tuple [int 1; int 2; int 3; int 4; int 5]),
               initial_globals)).
Proof.
  intros Hwf Hok Hfuel. split; [by apply normalize_index_flattens|].
  split; intros n Hn.
  - apply (normalize_index_fuel_mono 5); [vm_compute; reflexivity | done].
  - apply (normalize_index_fuel_mono 8); [vm_compute; reflexivity | done].
Qed.

Lemma normalize_index_depth_first_witness :
  let v := tuple [int 1; tuple [pylist [int 2; int 3]; int 4]; tuple [int 5]] in
  well_formed v = true ∧ globals_ok initial_globals = true ∧ weight v ≤ 9
  ∧ ∃ g', normalize_index 9 v initial_globals
          = Some (Ok (canonical (flattening (splices initial_globals) v)), g').
Proof.
  split; [reflexivity|]. split; [reflexivity|]. split; [vm_compute; lia|].
  apply normalize_index_depth_first; [reflexivity | reflexivity | vm_compute; lia].
Defined.

(** C3 — Result arity.  When the flattened result has exactly one element
    that element is returned bare, otherwise the tuple is returned, the
    empty tuple included: [normalize((7,)) == 7], [normalize([7]) == 7] and
    [normalize(()) == ()].  The first two parts are the [return] statements
    themselves, the next two the whole function on well-formed input. *)
Theorem normalize_index_result_arity v g fuel :
  well_formed v = true → globals_ok g = true → weight v ≤ fuel →
  (∀ f e, x_len f = 1%Z → x f !! 0 = Some e → finish f = Ok e)
  ∧ (∀ f, x_len f ≠ 1%Z → finish f = Ok (tuple (x f)))
  ∧ (∃ g',
       (∀ e, flattening (splices g) v = [e] →
             normalize_index fuel v g = Some (Ok e, g'))
       ∧ (length (flattening (splices g) v) ≠ 1 →
          normalize_index fuel v g
          = Some (Ok (tuple (flattening (splices g) v)), g')))
  ∧ (∀ n, 1 ≤ n →
       normalize_index n (tuple [int 7]) initial_globals
       = Some (Ok (int 7), initial_globals))
  ∧ (∀ n, 1 ≤ n →
       normalize_index n (pylist [int 7]) initial_globals
       = Some (Ok (int 7), initial_globals))
  ∧ (∀ n, normalize_index n (tuple []) initial_globals
          = Some (Ok (tuple []), initial_globals)).
Proof.
  intros Hwf Hok Hfuel.
  split; [|split; [|split; [|split; [|split]]]].
  - intros f e Hlen He. unfold finish. by rewrite decide_True, He.
  - intros f Hlen. unfold finish. by rewrite decide_False.
  - destruct (normalize_index_flattens fuel v g (splices g)) as [g' Hg'];
      try done.
    exists g'. split.
    + intros e He. by rewrite Hg', He.
    + intros Hne. rewrite Hg'.
      by destruct (flattening (splices g) v) as [|a [|b l]].
  - intros n Hn.
    apply (normalize_index_fuel_mono 1); [vm_compute; reflexivity | done].
  - intros n Hn.
    apply (normalize_index_fuel_mono 1); [vm_compute; reflexivity | done].
  - intros n.
    apply (normalize_index_fuel_mono 0); [vm_compute; reflexivity | lia].
Qed.

Lemma normalize_index_result_arity_witness :
  let v := tuple [tuple []; pylist [tuple [int 7]]] in
  well_formed v = true ∧ globals_ok initial_globals = true ∧ weight v ≤ 5
  ∧ ∃ g',
      (∀ e, flattening (splices initial_globals) v = [e] →
            normalize_index 5 v initial_globals = Some (Ok e, g'))
      ∧ (length (flattening (splices initial_globals) v) ≠ 1 →
         normalize_index 5 v initial_globals
         = Some (Ok (tuple (flattening (splices initial_globals) v)), g')).
Proof.
  split; [reflexivity|]. split; [reflexivity|]. split; [vm_compute; lia|].
  apply (normalize_index_result_arity
           (tuple [tuple []; pylist [tuple [int 7]]]) initial_globals 5);
    [reflexivity | reflexivity | vm_compute; lia].
Defined.

(** C4 — Identity on native values.  A value whose class is in
    [native_types] is returned as it is, before any tuple is built and
    without a loop iteration (even no fuel is enough), and the module state
    is untouched; a value whose class is in neither set and is no
    [Sequence] is wrapped, scanned once and unwrapped again, so
    [normalize(7) == 7] whether [int] is registered or not. *)
Theorem normalize_index_scalar_identity v g fuel :
  (class_of v ∈ native_types g →
   normalize_index 0 v g = Some (Ok v, g)
   ∧ normalize_index fuel v g = Some (Ok v, g))
  ∧ (class_of v ∉ native_types g → class_of v ∉ sequence_types g →
     cls_is_Sequence (class_of v) = false → 0 < fuel →
     enter v g = Ok {| x := [v]; x_len := 1%Z; i := 0 |}
     ∧ normalize_index fuel v g = Some (Ok v, g))
  ∧ normalize_index fuel (int 7) initial_globals
    = Some (Ok (int 7), initial_globals)
  ∧ (0 < fuel →
     normalize_index fuel (int 7)
       {| native_types := ∅; sequence_types := {[tuple_t]} ∪ {[list_t]};
          flatten := true |}
     = Some (Ok (int 7),
             {| native_types := ∅; sequence_types := {[tuple_t]} ∪ {[list_t]};
                flatten := true |})).
Proof.
  assert (Hnat : ∀ n w h, class_of w ∈ native_types h →
                          normalize_index n w h = Some (Ok w, h)).
  { intros n w h H. unfold normalize_index. by rewrite decide_True. }
  assert (Hscalar : ∀ n w h,
            class_of w ∉ native_types h → class_of w ∉ sequence_types h →
            cls_is_Sequence (class_of w) = false → 0 < n →
            enter w h = Ok {| x := [w]; x_len := 1%Z; i := 0 |}
            ∧ normalize_index n w h = Some (Ok w, h)).
  { intros n w h Hn Hs HS Hfuel.
    assert (He : enter w h = Ok {| x := [w]; x_len := 1%Z; i := 0 |}).
    { unfold enter. by rewrite decide_False. }
    split; [done|].
    unfold normalize_index. rewrite decide_False, He by done.
    destruct n as [|n]; [lia|].
    rewrite while_loop_step by (cbn; lia).
    unfold loop_body. cbn. rewrite !decide_False, HS by done.
    by rewrite while_loop_exit by (cbn; lia). }
  split; [auto|]. split; [auto|]. split.
  - apply Hnat. cbn. unfold initial_native_types. set_solver.
  - intros Hfuel. apply Hscalar; cbn; try done; set_solver.
Qed.

Lemma normalize_index_scalar_identity_witness :
  normalize_index 0 (str "ab") initial_globals
  = Some (Ok (str "ab"), initial_globals)
  ∧ normalize_index 1 (Atom Half_t 0) initial_globals
    = Some (Ok (Atom Half_t 0), initial_globals).
Proof.
  split.
  - apply (proj1 (normalize_index_scalar_identity
                    (str "ab") initial_globals 0)).
    vm_compute. congruence.
  - apply (proj1 (proj2 (normalize_index_scalar_identity
                           (Atom Half_t 0) initial_globals 1))).
    + vm_compute. congruence.
    + vm_compute. congruence.
    + reflexivity.
    + lia.
Defined.

(** C8 — Termination.  From a module state whose [sequence_types] holds
    only [Sequence] classes that are not [str], the loop stops from every
    frame and [normalize_index] returns (a result or an exception) on every
    input: values are finite trees, and a string, the one value that
    iterates into itself, is never spliced in such a state. *)
Theorem normalize_index_terminates g :
  globals_ok g = true →
  (∀ f, ∃ n, ∀ fuel, n ≤ fuel → is_Some (while_loop fuel f g))
  ∧ (∀ v, ∃ n, ∀ fuel, n ≤ fuel → is_Some (normalize_index fuel v g)).
Proof.
  intros Hok.
  assert (Hloop : ∀ f, ∃ n, ∀ fuel, n ≤ fuel → is_Some (while_loop fuel f g)).
  { intros f. exists (S (remaining f)). intros fuel Hfuel.
    apply while_loop_terminates; [done | lia]. }
  split; [done|]. intros v. unfold normalize_index.
  destruct (decide (class_of v ∈ native_types g)) as [Hnat|Hnat];
    [by exists 0|].
  destruct (enter v g) as [f|e]; [|by exists 0].
  destruct (Hloop f) as [m Hm]. exists m. intros fuel Hfuel.
  destruct (Hm fuel Hfuel) as [[[f'|e] g'] ->]; done.
Qed.

Lemma normalize_index_terminates_witness :
  globals_ok initial_globals = true
  ∧ ∃ n, ∀ fuel, n ≤ fuel →
      is_Some (normalize_index fuel
                 (tuple [Seq Path_t [bad; str "ab"]; half]) initial_globals).
Proof.
  split; [reflexivity|].
  apply (normalize_index_terminates initial_globals). reflexivity.
Defined.

(** ** A class stays in the set it was put in *)

Lemma learns_stays_native g g' c :
  learns g g' → c ∈ native_types g → c ∉ sequence_types g →
  c ∈ native_types g' ∧ c ∉ sequence_types g'.
Proof. intros [|d Hn Hs _ _|d Hn Hs _ _] Hc Hc'; cbn; set_solver. Qed.

Lemma learns_stays_sequence g g' c :
  learns g g' → c ∈ sequence_types g → c ∉ native_types g →
  c ∈ sequence_types g' ∧ c ∉ native_types g'.
Proof. intros [|d Hn Hs _ _|d Hn Hs _ _] Hc Hc'; cbn; set_solver. Qed.

Lemma evolves_stays_native g g' c :
  evolves g g' → c ∈ native_types g → c ∉ sequence_types g →
  c ∈ native_types g' ∧ c ∉ sequence_types g'.
Proof.
  induction 1 as [g|g g1 f _ IH]; [done|]. intros Hn Hs.
  destruct (IH Hn Hs) as [Hn1 Hs1].
  eapply learns_stays_native; [|done..].
  body_learns.
Qed.

Lemma evolves_stays_sequence g g' c :
  evolves g g' → c ∈ sequence_types g → c ∉ native_types g →
  c ∈ sequence_types g' ∧ c ∉ native_types g'.
Proof.
  induction 1 as [g|g g1 f _ IH]; [done|]. intros Hs Hn.
  destruct (IH Hs Hn) as [Hs1 Hn1].
  eapply learns_stays_sequence; [|done..].
  body_learns.
Qed.

(** An element whose class is in [sequence_types] and not in
    [native_types] is spliced by the second branch of the loop body, with
    no question asked of the class and no change to the module state. *)
Lemma loop_body_known_sequence f g xi :
  x f !! i f = Some xi →
  class_of xi ∉ native_types g → class_of xi ∈ sequence_types g →
  loop_body f g = (splice f xi, g).
Proof.
  intros Hxi Hn Hs. unfold loop_body. rewrite Hxi. cbn zeta.
  by rewrite decide_False, decide_True.
Qed.

(** ** The flag [normalize_index.flatten] *)

Lemma loop_body_set_flatten b f g :
  loop_body f (set_flatten b g)
  = prod_map id (set_flatten b) (loop_body f g).
Proof.
  unfold loop_body. destruct (x f !! i f) as [xi|]; [|done]. cbn.
  repeat case_decide; try done.
  destruct (cls_is_Sequence (class_of xi)), (cls_is_str (class_of xi)); done.
Qed.

Lemma while_loop_set_flatten b n : ∀ f g,
  while_loop n f (set_flatten b g)
  = prod_map id (set_flatten b) <$> while_loop n f g.
Proof.
  induction n as [|n IH]; intros f g.
  all: destruct (decide (i f < x_len f)%Z) as [Hlt|Hge].
  all: try by rewrite !while_loop_exit by done.
  - cbn. by rewrite !decide_True by done.
  - rewrite !while_loop_step, loop_body_set_flatten by done.
    destruct (loop_body f g) as [[f'|e] g']; cbn; [apply IH | done].
Qed.

(** ** Reaching a frame *)

Lemma reaches_while_loop f0 g0 f g :
  reaches f0 g0 f g →
  ∀ n r, while_loop n f g = Some r → ∃ m, while_loop m f0 g0 = Some r.
Proof.
  induction 1 as [f g|f g f1 g1 f2 g2 Hlt Hbody _ IH]; intros n r Hn.
  - by exists n.
  - destruct (IH n r Hn) as [m Hm]. exists (S m).
    by rewrite while_loop_step, Hbody by done.
Qed.

(** C6 — Registry invariant.  Whatever a call returns (a value or an
    exception), it leaves [native_types] and [sequence_types] disjoint when
    they were disjoint before, and every class of either set is still in
    it afterwards; the same holds after each single execution of the loop
    body. *)
Theorem registry_stays_disjoint_and_grows fuel v g r g' :
  normalize_index fuel v g = Some (r, g') →
  ((native_types g ## sequence_types g → native_types g' ## sequence_types g')
   ∧ native_types g ⊆ native_types g'
   ∧ sequence_types g ⊆ sequence_types g')
  ∧ ∀ f, let g1 := (loop_body f g).2 in
         (native_types g ## sequence_types g →
          native_types g1 ## sequence_types g1)
         ∧ native_types g ⊆ native_types g1
         ∧ sequence_types g ⊆ sequence_types g1.
Proof.
  intros H. apply normalize_index_evolves in H. split.
  - split; [by apply evolves_disjoint | by apply evolves_extends].
  - intros f g1.
    assert (Hl : learns g g1).
    { body_learns. }
    split; [by apply learns_disjoint | by apply learns_extends].
Qed.

Lemma registry_stays_disjoint_and_grows_witness :
  let v := tuple [Seq Path_t [int 1]; Str Label_t "x"; bad] in
  let g' := add_sequence Bad_t (add_native Label_t
              (add_sequence Path_t initial_globals)) in
  normalize_index 9 v initial_globals = Some (Raise (Raised "no item"), g')
  ∧ native_types initial_globals ## sequence_types initial_globals
  ∧ native_types g' ## sequence_types g'
  ∧ native_types initial_globals ⊆ native_types g'
  ∧ sequence_types initial_globals ⊆ sequence_types g'.
Proof.
  cbn zeta.
  assert (H : normalize_index 9
                (tuple [Seq Path_t [int 1]; Str Label_t "x"; bad])
                initial_globals
              = Some (Raise (Raised "no item"),
                      add_sequence Bad_t (add_native Label_t
                        (add_sequence Path_t initial_globals))))
    by (vm_compute; reflexivity).
  split; [exact H|].
  assert (Hd : native_types initial_globals ## sequence_types initial_globals)
    by compute_done.
  split; [exact Hd|].
  destruct (registry_stays_disjoint_and_grows _ _ _ _ _ H)
    as [(Hdis & Hn & Hs) _].
  split; [exact (Hdis Hd)|]. split; [exact Hn | exact Hs].
Defined.

(** C10 — The flag is not consulted.  Whatever value
    [normalize_index.flatten] holds, a call returns the same result and
    makes the same registrations, and leaves the flag as it found it; the
    module sets the flag to [True]. *)
Theorem normalize_index_ignores_flatten fuel v g b :
  normalize_index fuel v (set_flatten b g)
  = prod_map id (set_flatten b) <$> normalize_index fuel v g
  ∧ fst <$> normalize_index fuel v (set_flatten b g)
    = fst <$> normalize_index fuel v g
  ∧ (∀ r g', normalize_index fuel v g = Some (r, g') → flatten g' = flatten g)
  ∧ flatten initial_globals = true.
Proof.
  assert (H : normalize_index fuel v (set_flatten b g)
              = prod_map id (set_flatten b) <$> normalize_index fuel v g).
  { unfold normalize_index, enter. cbn.
    destruct (decide (class_of v ∈ native_types g)); [done|].
    destruct (if decide (class_of v ∈ sequence_types g)
              then py_tuple v else Ok [v]) as [xs|e]; [|done].
    rewrite while_loop_set_flatten.
    by destruct (while_loop fuel _ g) as [[[f'|e] g']|]. }
  split; [exact H|]. split; [|split; [|done]].
  - rewrite H. by destruct (normalize_index fuel v g) as [[r g']|].
  - intros r g' Hr. apply evolves_flatten.
    by eapply normalize_index_evolves.
Qed.

(** C5 — Strings are not flattened.  In a module state whose
    [sequence_types] holds no [str] class, an element of a [str] class is
    kept whole and the cursor moves past it; when its class is in neither
    set (and is, as every [str] class, a [Sequence]) the class is added to
    [native_types], where it stays, out of [sequence_types], for good.
    In particular [normalize(("ab", 1)) == ("ab", 1)]. *)
Theorem string_elements_are_kept f g xi :
  x f !! i f = Some xi → cls_is_str (class_of xi) = true →
  globals_ok g = true →
  (∃ g', loop_body f g = (Ok (advance f), g')
         ∧ class_of xi ∉ sequence_types g')
  ∧ (class_of xi ∉ native_types g → cls_is_Sequence (class_of xi) = true →
     loop_body f g = (Ok (advance f), add_native (class_of xi) g)
     ∧ ∀ g'', evolves (add_native (class_of xi) g) g'' →
              class_of xi ∈ native_types g''
              ∧ class_of xi ∉ sequence_types g'')
  ∧ (∀ n, 2 ≤ n →
       normalize_index n (tuple [str "ab"; int 1]) initial_globals
       = Some (Ok (tuple [str "ab"; int 1]), initial_globals)).
Proof.
  intros Hxi Hstr Hok.
  assert (Hs : class_of xi ∉ sequence_types g).
  { intros Hs. apply globals_ok_spec in Hs as [_ Hs]; [|done]. congruence. }
  assert (Hsp : splices g (class_of xi) = false).
  { unfold splices. rewrite (bool_decide_eq_false_2 _ Hs), Hstr. cbn.
    by rewrite andb_false_r, andb_false_r. }
  split; [|split].
  - destruct (loop_body_keep f g xi Hxi Hsp) as (g' & Hb & Hl).
    exists g'. split; [done|].
    destruct Hl as [|d _ _ _ _|d _ _ _ Hd]; cbn; try done.
    intros [Heq%elem_of_singleton|?]%elem_of_union; [congruence | done].
  - intros Hn HS. split.
    + unfold loop_body. rewrite Hxi. cbn zeta.
      by rewrite !decide_False, HS, Hstr by done.
    + intros g'' Hev. eapply evolves_stays_native; [done|cbn..].
      * set_solver.
      * done.
  - intros n Hn.
    apply (normalize_index_fuel_mono 2); [vm_compute; reflexivity | done].
Qed.

Lemma string_elements_are_kept_witness :
  let f := {| x := [int 1; Str Label_t "cd"; int 2]; x_len := 3%Z; i := 1 |} in
  let g := initial_globals in
  x f !! i f = Some (Str Label_t "cd")
  ∧ cls_is_str Label_t = true ∧ globals_ok g = true
  ∧ ∃ g', loop_body f g = (Ok (advance f), g')
          ∧ Label_t ∉ sequence_types g'.
Proof.
  cbn zeta. split; [reflexivity|]. split; [reflexivity|]. split; [reflexivity|].
  apply (string_elements_are_kept
           {| x := [int 1; Str Label_t "cd"; int 2]; x_len := 3%Z; i := 1 |}
           initial_globals (Str Label_t "cd")); reflexivity.
Defined.

(** C7 — Type learning.  When the loop meets an element whose class is in
    neither set and is a [Sequence] other than a [str], it adds the class to
    [sequence_types] before splicing (so also when the splice then raises).
    In every module state that follows, later in the same call or in any
    later call, the class is in [sequence_types] and not in [native_types],
    and an element or argument of that class is handled by the membership
    test alone: the loop body splices it and [normalize_index] iterates it
    without changing the module state.  The membership test decides for
    any class, whatever [issubclass] would answer for it. *)
Theorem learned_sequence_type_is_permanent f g xi :
  x f !! i f = Some xi →
  class_of xi ∉ native_types g → class_of xi ∉ sequence_types g →
  cls_is_Sequence (class_of xi) = true → cls_is_str (class_of xi) = false →
  loop_body f g = (splice f xi, add_sequence (class_of xi) g)
  ∧ ∀ g2, evolves (add_sequence (class_of xi) g) g2 →
      class_of xi ∈ sequence_types g2 ∧ (class_of xi ∉ native_types g2)
      ∧ (∀ f' xj, x f' !! i f' = Some xj → class_of xj = class_of xi →
                  loop_body f' g2 = (splice f' xj, g2))
      ∧ (∀ w, class_of w = class_of xi →
              enter w g2
              = match py_tuple w with
                | Ok xs => Ok {| x := xs; x_len := length xs; i := 0 |}
                | Raise e => Raise e
                end)
      ∧ (∀ d f' xj, d ∈ sequence_types g2 → d ∉ native_types g2 →
                    x f' !! i f' = Some xj → class_of xj = d →
                    loop_body f' g2 = (splice f' xj, g2))
      ∧ (∀ fuel f' r g3, while_loop fuel f' g2 = Some (r, g3) →
                         evolves (add_sequence (class_of xi) g) g3)
      ∧ (∀ fuel w r g3, normalize_index fuel w g2 = Some (r, g3) →
                        evolves (add_sequence (class_of xi) g) g3).
Proof.
  intros Hxi Hn Hs HS Hstr. split.
  { unfold loop_body. rewrite Hxi. cbn zeta.
    by rewrite !decide_False, HS, Hstr by done. }
  intros g2 Hev.
  destruct (evolves_stays_sequence _ g2 (class_of xi) Hev) as [Hs2 Hn2];
    [cbn; set_solver | done |].
  split; [done|]. split; [done|]. split; [|split; [|split; [|split]]].
  - intros f' xj Hxj Hc. apply loop_body_known_sequence; by rewrite ?Hc.
  - intros w Hc. unfold enter. by rewrite Hc, decide_True.
  - intros d f' xj Hd Hd' Hxj Hc. apply loop_body_known_sequence; by rewrite ?Hc.
  - intros fuel f' r g3 Hw. eapply evolves_trans; [exact Hev|].
    by eapply while_loop_evolves.
  - intros fuel w r g3 Hw. eapply evolves_trans; [exact Hev|].
    by eapply normalize_index_evolves.
Qed.

Lemma learned_sequence_type_is_permanent_witness :
  let xi := Seq Path_t [int 2; int 3] in
  let f := {| x := [int 1; xi; Seq Path_t [int 4]]; x_len := 3%Z; i := 1 |} in
  let g := initial_globals in
  x f !! i f = Some xi
  ∧ (Path_t ∉ native_types g) ∧ (Path_t ∉ sequence_types g)
  ∧ cls_is_Sequence Path_t = true ∧ cls_is_str Path_t = false
  ∧ loop_body f g = (splice f xi, add_sequence Path_t g)
  ∧ Path_t ∈ sequence_types (add_sequence Path_t g).
Proof.
  cbn zeta.
  assert (Hn : Path_t ∉ native_types initial_globals)
    by (vm_compute; congruence).
  assert (Hs : Path_t ∉ sequence_types initial_globals)
    by (vm_compute; congruence).
  split; [reflexivity|]. split; [exact Hn|]. split; [exact Hs|].
  split; [reflexivity|]. split; [reflexivity|].
  destruct (learned_sequence_type_is_permanent
              {| x := [int 1; Seq Path_t [int 2; int 3]; Seq Path_t [int 4]];
                 x_len := 3%Z; i := 1 |}
              initial_globals (Seq Path_t [int 2; int 3])
              eq_refl Hn Hs eq_refl eq_refl) as [Hbody Hlater].
  split; [exact Hbody|].
  exact (proj1 (Hlater _ (evolves_refl _))).
Defined.

(** C9, as the claim states it, fails: [half] reports a length of two and
    raises when iterated, its class does not derive from [Sequence], and
    [normalize_index] returns it inside the result without an exception. *)
Lemma partial_protocol_kept_silently :
  py_len half = Ok 2
  ∧ py_tuple half = Raise (Raised "no item")
  ∧ normalize_index 2 (tuple [half; int 1]) initial_globals
    = Some (Ok (tuple [half; int 1]), initial_globals)
  ∧ normalize_index 1 (tuple [half]) initial_globals
    = Some (Ok half, initial_globals).
Proof. repeat split; vm_compute; reflexivity. Qed.

(** C9, amended — Let a call reach an element [xi] of the working tuple.
    If the class of [xi] is not native and is in [sequence_types] or is a
    [Sequence] other than a [str], and [len(xi)] raises, or [len(xi)]
    returns and iterating [xi] raises, then the call ends with that
    exception.  If the class of [xi] is native, or is in neither set and
    is no [Sequence], then [xi] is kept and the cursor moves on, whatever
    [len(xi)] and iteration would do, and the module state is unchanged. *)
Theorem sequence_failure_propagates v g f0 f g1 xi :
  class_of v ∉ native_types g → enter v g = Ok f0 →
  reaches f0 g f g1 → (i f < x_len f)%Z → x f !! i f = Some xi →
  (∀ e, class_of xi ∉ native_types g1 →
        (class_of xi ∈ sequence_types g1
         ∨ (cls_is_Sequence (class_of xi) = true
            ∧ cls_is_str (class_of xi) = false)) →
        (py_len xi = Raise e
         ∨ (∃ n, py_len xi = Ok n) ∧ py_tuple xi = Raise e) →
        ∃ n g', ∀ fuel, n ≤ fuel →
                normalize_index fuel v g = Some (Raise e, g'))
  ∧ (class_of xi ∈ native_types g1
     ∨ ((class_of xi ∉ sequence_types g1)
        ∧ cls_is_Sequence (class_of xi) = false) →
     loop_body f g1 = (Ok (advance f), g1)).
Proof.
  intros Hv Henter Hreach Hlt Hxi. split.
  - intros e Hn Hseq Hfail.
    assert (Hsp : splices g1 (class_of xi) = true).
    { unfold splices. rewrite (bool_decide_eq_true_2 _ Hn). cbn.
      destruct Hseq as [Hs|[-> ->]].
      - by rewrite (bool_decide_eq_true_2 _ Hs).
      - by rewrite orb_true_r. }
    assert (Hsplice : splice f xi = Raise e).
    { unfold splice. destruct Hfail as [->|[[m ->] ->]]; done. }
    destruct (loop_body_splice f g1 xi Hxi Hsp) as (g2 & Hbody & _).
    assert (H1 : while_loop 1 f g1 = Some (Raise e, g2)).
    { by rewrite while_loop_step, Hbody, Hsplice by done. }
    destruct (reaches_while_loop _ _ _ _ Hreach _ _ H1) as [m Hm].
    exists m, g2. intros fuel Hfuel.
    apply (normalize_index_fuel_mono m); [|done].
    unfold normalize_index. by rewrite decide_False, Henter, Hm by done.
  - intros Hkeep. unfold loop_body. rewrite Hxi. cbn zeta.
    destruct Hkeep as [Hn|[Hs HS]]; [by rewrite decide_True|].
    destruct (decide (class_of xi ∈ native_types g1)); [done|].
    by rewrite decide_False, HS by done.
Qed.

Lemma sequence_failure_propagates_witness :
  let v := tuple [int 1; bad] in
  let f0 := {| x := [int 1; bad]; x_len := 2%Z; i := 0 |} in
  let f := {| x := [int 1; bad]; x_len := 2%Z; i := 1 |} in
  reaches f0 initial_globals f initial_globals
  ∧ ∃ n g', ∀ fuel, n ≤ fuel →
      normalize_index fuel v initial_globals
      = Some (Raise (Raised "no item"), g').
Proof.
  cbn zeta.
  assert (Hreach : reaches {| x := [int 1; bad]; x_len := 2%Z; i := 0 |}
                     initial_globals
                     {| x := [int 1; bad]; x_len := 2%Z; i := 1 |}
                     initial_globals).
  { eapply reaches_step; [cbn; lia | vm_compute; reflexivity|].
    apply reaches_here. }
  split; [exact Hreach|].
  refine (proj1 (sequence_failure_propagates
                   (tuple [int 1; bad]) initial_globals _ _ _ bad
                   _ _ Hreach _ _) (Raised "no item") _ _ _).
  - vm_compute. congruence.
  - vm_compute. reflexivity.
  - cbn. lia.
  - reflexivity.
  - vm_compute. congruence.
  - right. split; reflexivity.
  - right. split; [by exists 2 | reflexivity].
Defined.

(** * Further properties *)

(** ** The loop body as a registration *)

Lemma loop_body_register f g xi :
  x f !! i f = Some xi → (loop_body f g).2 = register (class_of xi) g.
Proof.
  intros Hxi. unfold loop_body, register. rewrite Hxi. cbn zeta.
  repeat case_decide; try done.
  by destruct (cls_is_Sequence (class_of xi)), (cls_is_str (class_of xi)).
Qed.

Lemma register_learns c g : learns g (register c g).
Proof.
  unfold register. repeat case_decide; try constructor.
  destruct (cls_is_Sequence c) eqn:HS; [|constructor].
  destruct (cls_is_str c) eqn:Hstr;
    [by apply learns_native | by apply learns_sequence].
Qed.

Lemma register_known c g :
  c ∈ native_types g ∨ c ∈ sequence_types g ∨ cls_is_Sequence c = false →
  register c g = g.
Proof.
  intros H. unfold register. repeat case_decide; try done.
  destruct H as [?|[?|HS]]; try done. by rewrite HS.
Qed.

Lemma register_makes_known c g :
  c ∈ native_types (register c g) ∨ c ∈ sequence_types (register c g)
  ∨ cls_is_Sequence c = false.
Proof.
  unfold register. repeat case_decide; auto.
  destruct (cls_is_Sequence c); [|auto].
  destruct (cls_is_str c); cbn; [left|right; left]; set_solver.
Qed.

Lemma loop_body_keep_register f g xi :
  x f !! i f = Some xi → splices g (class_of xi) = false →
  loop_body f g = (Ok (advance f), register (class_of xi) g).
Proof.
  intros Hxi Hsp. destruct (loop_body_keep f g xi Hxi Hsp) as (g' & Hb & _).
  rewrite <- (loop_body_register f g xi Hxi), Hb. done.
Qed.

Lemma loop_body_splice_register f g xi :
  x f !! i f = Some xi → splices g (class_of xi) = true →
  loop_body f g = (splice f xi, register (class_of xi) g).
Proof.
  intros Hxi Hsp. destruct (loop_body_splice f g xi Hxi Hsp) as (g' & Hb & _).
  rewrite <- (loop_body_register f g xi Hxi), Hb. done.
Qed.

Lemma register_all_app l k g :
  register_all (l ++ k) g = register_all k (register_all l g).
Proof. unfold register_all. by rewrite foldl_app. Qed.

Lemma register_all_evolves l g : evolves g (register_all l g).
Proof.
  revert g. induction l as [|c l IH] using rev_ind; intros g.
  { constructor. }
  rewrite register_all_app. cbn.
  pose proof (evolves_step g (register_all l g)
                {| x := [Atom c 0]; x_len := 1%Z; i := 0 |} (IH g)) as H.
  by rewrite (loop_body_register _ _ (Atom c 0)) in H.
Qed.

(** ** Visited classes *)

Lemma visited_keep sp v : sp (class_of v) = false → visited sp v = [class_of v].
Proof. destruct v as [| | |? ? []]; cbn; intros H; by rewrite ?H. Qed.

Lemma visited_container sp v items :
  py_tuple v = Ok items → well_formed v = true →
  cls_is_Sequence (class_of v) = true → cls_is_str (class_of v) = false →
  sp (class_of v) = true →
  visited sp v = class_of v :: flat_map (visited sp) items
  ∧ flattening sp v = flat_map (flattening sp) items
  ∧ py_len v = Ok (length items)
  ∧ Forall (fun w => well_formed w = true) items.
Proof.
  intros Hpt Hwf HS Hstr Hsp.
  destruct (well_formed_container v Hwf HS Hstr)
    as (items' & Hpl & Hpt' & Hwfi & Hflat).
  assert (items' = items) as -> by congruence.
  split; [|by auto].
  destruct v as [c z|c s|c l|c [n|e] [l|e']]; cbn in *; simplify_eq;
    try congruence; by rewrite Hsp.
Qed.

Lemma length_visited sp v : length (visited sp v) ≤ weight v.
Proof.
  assert (Hgen : ∀ n v, weight v ≤ n → length (visited sp v) ≤ weight v);
    [|by apply (Hgen (weight v))].
  clear v. induction n as [|n IH]; intros v Hv.
  { pose proof (weight_pos v). lia. }
  assert (Hitems : ∀ l, sum_list_with weight l ≤ n →
            length (flat_map (visited sp) l) ≤ sum_list_with weight l).
  { induction l as [|w l IHl]; cbn; intros Hl; [done|].
    rewrite length_app. pose proof (IH w). lia. }
  destruct v as [c z|c s|c l|c len [l|e]]; cbn in *; try lia.
  - destruct (cls_is_str c); lia.
  - destruct (sp c); cbn; [|lia]. pose proof (Hitems l). lia.
  - destruct (sp c); cbn; [|lia]. pose proof (Hitems l). lia.
Qed.

Lemma frame_eq (l1 l2 : list value) (k1 k2 : Z) (j1 j2 : nat) :
  l1 = l2 → k1 = k2 → j1 = j2 → Frame l1 k1 j1 = Frame l2 k2 j2.
Proof. by intros -> -> ->. Qed.

(** ** Scanning a well-formed stretch of the working tuple

    When the elements from the cursor on begin with the well-formed list
    [pre], one loop iteration per visited class replaces [pre] by its
    flattening, moves the cursor behind it and registers the visited
    classes; what follows [pre] is not looked at. *)
Lemma while_loop_scan n : ∀ f g sp pre rest m,
  sum_list_with weight pre ≤ n →
  drop (i f) (x f) = pre ++ rest →
  Forall (fun v => well_formed v = true) pre →
  globals_ok g = true → (∀ c, splices g c = sp c) →
  (length (x f) ≤ x_len f)%Z →
  while_loop (length (flat_map (visited sp) pre) + m) f g
  = while_loop m
      {| x := take (i f) (x f) ++ flat_map (flattening sp) pre ++ rest;
         x_len := (x_len f + length (flat_map (flattening sp) pre)
                   - length pre)%Z;
         i := i f + length (flat_map (flattening sp) pre) |}
      (register_all (flat_map (visited sp) pre) g).
Proof.
  induction n as [|n IH]; intros f g sp pre rest m Hn Hdrop Hwf Hok Hsp Hlen.
  all: destruct pre as [|xi pre].
  all: try (cbn; f_equal; destruct f as [l k j]; cbn in *;
            apply frame_eq; [by rewrite <- Hdrop, take_drop | lia | lia]).
  { pose proof (weight_pos xi). cbn in Hn. lia. }
  assert (Hxi : x f !! i f = Some xi).
  { rewrite <- (Nat.add_0_r (i f)), <- lookup_drop, Hdrop. done. }
  pose proof (lookup_lt_Some _ _ _ Hxi) as Hlt.
  rewrite (drop_S _ _ _ Hxi) in Hdrop. cbn in Hdrop.
  injection Hdrop as Hdrop.
  apply Forall_cons in Hwf as [Hwfi Hwfp].
  pose proof (weight_pos xi) as Hpos. cbn in Hn.
  cbn [flat_map].
  destruct (sp (class_of xi)) eqn:Hspi.
  - destruct (splices_globals_ok g (class_of xi) Hok) as [HS Hstr];
      [by rewrite Hsp|].
    destruct (well_formed_container xi Hwfi HS Hstr)
      as (items & _ & Hpt & _ & _).
    destruct (visited_container sp xi items Hpt Hwfi HS Hstr Hspi)
      as (Hvis & Hflat & Hpl & Hwfitems).
    pose proof (weight_py_tuple xi items Hpt Hstr) as Hw.
    rewrite Hvis, Hflat. cbn [app length Nat.add].
    rewrite while_loop_step by lia.
    rewrite (loop_body_splice_register f g xi Hxi) by (by rewrite Hsp).
    unfold splice. rewrite Hpl, Hpt.
    rewrite <- flat_map_app.
    rewrite (IH _ _ sp (items ++ pre) rest m).
    + cbn [x x_len i register_all foldl].
      rewrite take_spliced by done.
      f_equal. apply frame_eq.
      * by rewrite !flat_map_app, <- !app_assoc.
      * rewrite !flat_map_app, !length_app. cbn [length]. lia.
      * by rewrite !flat_map_app, !length_app.
    + rewrite sum_list_with_app. lia.
    + cbn [x i]. rewrite drop_spliced by done.
      by rewrite Hdrop, <- app_assoc.
    + by apply Forall_app.
    + eapply learns_globals_ok; [apply register_learns | done].
    + intros c. rewrite <- Hsp. apply learns_splices, register_learns.
    + cbn [x x_len]. rewrite length_spliced by done. lia.
  - rewrite (visited_keep sp xi Hspi), (flattening_keep sp xi Hspi).
    cbn [app length Nat.add].
    rewrite while_loop_step by lia.
    rewrite (loop_body_keep_register f g xi Hxi) by (by rewrite Hsp).
    rewrite (IH _ _ sp pre rest m).
    + cbn [x x_len i advance register_all foldl].
      f_equal. apply frame_eq.
      * by rewrite (take_S_r _ _ _ Hxi), <- app_assoc.
      * cbn [length]. lia.
      * lia.
    + lia.
    + done.
    + done.
    + eapply learns_globals_ok; [apply register_learns | done].
    + intros c. rewrite <- Hsp. apply learns_splices, register_learns.
    + done.
Qed.

Lemma length_visited_list sp (l : list value) :
  length (flat_map (visited sp) l) ≤ sum_list_with weight l.
Proof.
  induction l as [|w l IH]; cbn; [done|].
  rewrite length_app. pose proof (length_visited sp w). lia.
Qed.

(** The scan of everything that remains, when the logical length is the
    actual length: the loop stops on the flattened tuple. *)
Lemma while_loop_scan_all f g sp m :
  Forall (fun v => well_formed v = true) (drop (i f) (x f)) →
  globals_ok g = true → (∀ c, splices g c = sp c) →
  x_len f = length (x f) → i f ≤ length (x f) →
  while_loop (length (flat_map (visited sp) (drop (i f) (x f))) + m) f g
  = Some (Ok (scanned (take (i f) (x f)
                       ++ flat_map (flattening sp) (drop (i f) (x f)))),
          register_all (flat_map (visited sp) (drop (i f) (x f))) g).
Proof.
  intros Hwf Hok Hsp Hlen Hi.
  rewrite (while_loop_scan (sum_list_with weight (drop (i f) (x f)))
             f g sp (drop (i f) (x f)) [] m); try done.
  - rewrite while_loop_exit; [|cbn [x x_len i]].
    + do 3 f_equal. unfold scanned. rewrite app_nil_r. apply frame_eq.
      * done.
      * rewrite !length_app, length_take_le, length_drop by lia. lia.
      * rewrite !length_app, length_take_le by lia. lia.
    + rewrite length_drop. lia.
  - by rewrite app_nil_r.
  - lia.
Qed.

(** The same scan when the logical length is larger than the actual
    length: the iteration after the last element finds no [x[i]]. *)
Lemma while_loop_scan_overlong f g sp m :
  Forall (fun v => well_formed v = true) (drop (i f) (x f)) →
  globals_ok g = true → (∀ c, splices g c = sp c) →
  (length (x f) < x_len f)%Z → i f ≤ length (x f) →
  while_loop (length (flat_map (visited sp) (drop (i f) (x f))) + S m) f g
  = Some (Raise IndexError,
          register_all (flat_map (visited sp) (drop (i f) (x f))) g).
Proof.
  intros Hwf Hok Hsp Hlen Hi.
  rewrite (while_loop_scan (sum_list_with weight (drop (i f) (x f)))
             f g sp (drop (i f) (x f)) [] (S m)); try done.
  - rewrite while_loop_step; [|cbn [x x_len i]].
    + unfold loop_body. cbn [x i]. rewrite lookup_ge_None_2; [done|].
      rewrite !length_app, length_take_le by lia. cbn. lia.
    + rewrite length_drop. lia.
  - by rewrite app_nil_r.
  - lia.
Qed.

(** ** The value and the module state a call returns *)

Lemma normalize_index_effect fuel v g sp :
  well_formed v = true → globals_ok g = true → (∀ c, splices g c = sp c) →
  weight v ≤ fuel →
  normalize_index fuel v g
  = Some (Ok (canonical (flattening sp v)), register_all (visited sp v) g).
Proof.
  intros Hwf Hok Hsp Hfuel. unfold normalize_index.
  destruct (decide (class_of v ∈ native_types g)) as [Hn|Hn].
  { assert (Hspv : sp (class_of v) = false).
    { rewrite <- Hsp. by apply splices_native. }
    rewrite flattening_keep, visited_keep by done. cbn.
    rewrite register_known by auto. done. }
  unfold enter. destruct (decide (class_of v ∈ sequence_types g)) as [Hs|Hs].
  - pose proof (splices_sequence g _ Hn Hs) as Hspv.
    destruct (splices_globals_ok g _ Hok Hspv) as [HS Hstr].
    destruct (well_formed_container v Hwf HS Hstr)
      as (items & _ & Hpt & _ & _).
    rewrite Hsp in Hspv.
    destruct (visited_container sp v items Hpt Hwf HS Hstr Hspv)
      as (Hvis & Hflat & Hpl & Hwfitems).
    pose proof (weight_py_tuple v items Hpt Hstr) as Hw.
    pose proof (length_visited_list sp items) as Hk.
    rewrite Hpt, Hvis, Hflat.
    replace fuel with (length (flat_map (visited sp) items)
                       + (fuel - length (flat_map (visited sp) items)))
      at 1 by lia.
    pose proof (while_loop_scan_all
                  {| x := items; x_len := length items; i := 0 |} g sp
                  (fuel - length (flat_map (visited sp) items))) as Hscan.
    cbn [x x_len i] in Hscan. rewrite drop_0 in Hscan.
    rewrite Hscan by (done || lia). cbn [take app].
    rewrite finish_scanned. cbn [register_all foldl].
    rewrite (register_known (class_of v)) by auto. done.
  - assert (Hk : length (flat_map (visited sp) [v]) ≤ fuel).
    { cbn. rewrite app_nil_r. pose proof (length_visited sp v). lia. }
    replace fuel with (length (flat_map (visited sp) [v])
                       + (fuel - length (flat_map (visited sp) [v])))
      at 1 by lia.
    pose proof (while_loop_scan_all
                  {| x := [v]; x_len := length [v]; i := 0 |} g sp
                  (fuel - length (flat_map (visited sp) [v]))) as Hscan.
    cbn [x x_len i] in Hscan. rewrite drop_0 in Hscan.
    rewrite Hscan; [|by repeat constructor|done..|cbn; lia].
    cbn [take app flat_map]. rewrite !app_nil_r.
    by rewrite finish_scanned.
Qed.

(** ** Registrations *)

Lemma register_all_known l g :
  Forall (fun c => c ∈ native_types g ∨ c ∈ sequence_types g
                   ∨ cls_is_Sequence c = false) l →
  register_all l g = g.
Proof.
  induction 1 as [|c l Hc _ IH]; [done|].
  cbn. rewrite register_known by done. exact IH.
Qed.

Lemma extends_known g g' c :
  extends g g' →
  c ∈ native_types g ∨ c ∈ sequence_types g ∨ cls_is_Sequence c = false →
  c ∈ native_types g' ∨ c ∈ sequence_types g' ∨ cls_is_Sequence c = false.
Proof. intros [Hn Hs] [?|[?|?]]; [left|right; left|right; right]; set_solver. Qed.

Lemma register_all_makes_known l : ∀ g,
  Forall (fun c => c ∈ native_types (register_all l g)
                   ∨ c ∈ sequence_types (register_all l g)
                   ∨ cls_is_Sequence c = false) l.
Proof.
  induction l as [|c l IH]; intros g; [constructor|].
  constructor; [|apply IH]. cbn.
  eapply extends_known; [|apply register_makes_known].
  apply evolves_extends, register_all_evolves.
Qed.

Lemma learns_typed g g' :
  learns g g' →
  (∀ c, c ∈ native_types g' →
        c ∈ native_types g
        ∨ cls_is_Sequence c = true ∧ cls_is_str c = true)
  ∧ (∀ c, c ∈ sequence_types g' →
          c ∈ sequence_types g
          ∨ cls_is_Sequence c = true ∧ cls_is_str c = false).
Proof.
  intros [|d _ _ HS Hstr|d _ _ HS Hstr]; cbn; split; intros c Hc; auto.
  - apply elem_of_union in Hc as [->%elem_of_singleton|?]; auto.
  - apply elem_of_union in Hc as [->%elem_of_singleton|?]; auto.
Qed.

Lemma evolves_typed g g' :
  evolves g g' →
  (∀ c, c ∈ native_types g' →
        c ∈ native_types g
        ∨ cls_is_Sequence c = true ∧ cls_is_str c = true)
  ∧ (∀ c, c ∈ sequence_types g' →
          c ∈ sequence_types g
          ∨ cls_is_Sequence c = true ∧ cls_is_str c = false).
Proof.
  induction 1 as [g|g g1 f _ [IHn IHs]]; [by auto|].
  assert (Hl : learns g1 (loop_body f g1).2) by body_learns.
  destruct (learns_typed _ _ Hl) as [Hn Hs].
  split; intros c Hc.
  - destruct (Hn c Hc) as [?|?]; auto.
  - destruct (Hs c Hc) as [?|?]; auto.
Qed.

(** X1 — The module state a call leaves.  On well-formed input a call
    returns the canonical form of the flattening, and the module state it
    leaves is the one it found with [register] applied to the class of
    every element the loop looked at, in that order; when each of those
    classes is already in one of the two sets or is no [Sequence], the
    module state is left as it was. *)
Theorem normalize_index_registers_visited v g fuel :
  well_formed v = true → globals_ok g = true → weight v ≤ fuel →
  normalize_index fuel v g
  = Some (Ok (canonical (flattening (splices g) v)),
          register_all (visited (splices g) v) g)
  ∧ (Forall (fun c => c ∈ native_types g ∨ c ∈ sequence_types g
                      ∨ cls_is_Sequence c = false)
            (visited (splices g) v) →
     normalize_index fuel v g
     = Some (Ok (canonical (flattening (splices g) v)), g)).
Proof.
  intros Hwf Hok Hfuel.
  pose proof (normalize_index_effect fuel v g (splices g) Hwf Hok
                (fun c => eq_refl) Hfuel) as H.
  split; [exact H|]. intros Hknown. by rewrite H, register_all_known.
Qed.

Lemma normalize_index_registers_visited_witness :
  let v := tuple [Seq Path_t [int 1; Str Label_t "a"]; Atom Half_t 0] in
  well_formed v = true ∧ globals_ok initial_globals = true ∧ weight v ≤ 9
  ∧ normalize_index 9 v initial_globals
    = Some (Ok (tuple [int 1; Str Label_t "a"; Atom Half_t 0]),
            add_native Label_t (add_sequence Path_t initial_globals)).
Proof.
  cbn zeta. split; [reflexivity|]. split; [reflexivity|].
  split; [vm_compute; lia|].
  etrans.
  - refine (proj1 (normalize_index_registers_visited
             (tuple [Seq Path_t [int 1; Str Label_t "a"]; Atom Half_t 0])
             initial_globals 9 _ _ _));
      [reflexivity | reflexivity | vm_compute; lia].
  - vm_compute. reflexivity.
Defined.

(** X2 — A repeated call.  On well-formed input, calling again with the
    same argument in the module state the first call left returns the same
    value and leaves that module state as it is: whatever a call learns,
    it learns the first time. *)
Theorem normalize_index_repeated_call v g fuel :
  well_formed v = true → globals_ok g = true → weight v ≤ fuel →
  ∃ w g1, normalize_index fuel v g = Some (Ok w, g1)
          ∧ normalize_index fuel v g1 = Some (Ok w, g1).
Proof.
  intros Hwf Hok Hfuel.
  pose proof (normalize_index_effect fuel v g (splices g) Hwf Hok
                (fun c => eq_refl) Hfuel) as H1.
  set (g1 := register_all (visited (splices g) v) g) in *.
  assert (Hev : evolves g g1) by apply register_all_evolves.
  exists (canonical (flattening (splices g) v)), g1. split; [exact H1|].
  rewrite (normalize_index_effect fuel v g1 (splices g)); try done.
  - rewrite register_all_known; [done|]. apply register_all_makes_known.
  - by eapply evolves_globals_ok.
  - intros c. by apply evolves_splices.
Qed.

Lemma normalize_index_repeated_call_witness :
  let v := tuple [Seq Path_t [int 1; Str Label_t "a"]; Atom Half_t 0] in
  well_formed v = true ∧ globals_ok initial_globals = true ∧ weight v ≤ 9
  ∧ ∃ w g1, normalize_index 9 v initial_globals = Some (Ok w, g1)
            ∧ normalize_index 9 v g1 = Some (Ok w, g1).
Proof.
  cbn zeta. split; [reflexivity|]. split; [reflexivity|].
  split; [vm_compute; lia|].
  apply normalize_index_repeated_call;
    [reflexivity | reflexivity | vm_compute; lia].
Defined.

(** X3 — What is never registered.  Whatever the argument and whether the
    call returns or raises, a class that the call added to [native_types]
    is a [Sequence] and a [str], and a class that it added to
    [sequence_types] is a [Sequence] and no [str]; a class that is no
    [Sequence] is never added to either set. *)
Theorem only_sequence_classes_are_registered fuel v g r g' :
  normalize_index fuel v g = Some (r, g') →
  (∀ c, c ∈ native_types g' →
        c ∈ native_types g
        ∨ cls_is_Sequence c = true ∧ cls_is_str c = true)
  ∧ (∀ c, c ∈ sequence_types g' →
          c ∈ sequence_types g
          ∨ cls_is_Sequence c = true ∧ cls_is_str c = false).
Proof. intros H. apply evolves_typed. by eapply normalize_index_evolves. Qed.

Lemma only_sequence_classes_are_registered_witness :
  let v := tuple [Seq Path_t [int 1]; Str Label_t "x"; half; bad] in
  let g' := add_sequence Bad_t (add_native Label_t
              (add_sequence Path_t initial_globals)) in
  normalize_index 9 v initial_globals = Some (Raise (Raised "no item"), g')
  ∧ (Half_t ∉ native_types g') ∧ (Half_t ∉ sequence_types g').
Proof.
  cbn zeta.
  assert (H : normalize_index 9
                (tuple [Seq Path_t [int 1]; Str Label_t "x"; half; bad])
                initial_globals
              = Some (Raise (Raised "no item"),
                      add_sequence Bad_t (add_native Label_t
                        (add_sequence Path_t initial_globals))))
    by (vm_compute; reflexivity).
  split; [exact H|].
  destruct (only_sequence_classes_are_registered _ _ _ _ _ H) as [Hn Hs].
  split.
  - intros Hc. destruct (Hn _ Hc) as [Hc'|[HS _]]; [|discriminate HS].
    revert Hc'. vm_compute. congruence.
  - intros Hc. destruct (Hs _ Hc) as [Hc'|[HS _]]; [|discriminate HS].
    revert Hc'. vm_compute. congruence.
Defined.

(** ** What a flattening contains *)

Lemma flattening_kept sp v :
  well_formed v = true →
  (∀ c, sp c = true → cls_is_Sequence c = true ∧ cls_is_str c = false) →
  Forall (fun e => sp (class_of e) = false ∧ class_of e ∈ visited sp v)
         (flattening sp v).
Proof.
  intros Hwf Hsp. revert Hwf.
  assert (Hgen : ∀ n v, weight v ≤ n → well_formed v = true →
            Forall (fun e => sp (class_of e) = false
                             ∧ class_of e ∈ visited sp v) (flattening sp v));
    [|by apply (Hgen (weight v))].
  clear v. induction n as [|n IH]; intros v Hv Hwf.
  { pose proof (weight_pos v). lia. }
  assert (Hitems : ∀ c l, sum_list_with weight l ≤ n →
            forallb well_formed l = true →
            Forall (fun e => sp (class_of e) = false
                             ∧ class_of e ∈ c :: flat_map (visited sp) l)
                   (flat_map (flattening sp) l)).
  { intros c. induction l as [|w l IHl]; cbn; intros Hl Hall; [constructor|].
    apply andb_true_iff in Hall as [Hw Hall].
    apply Forall_app. split.
    - eapply Forall_impl; [apply IH; [lia | exact Hw]|].
      intros e [He He']. split; [exact He|].
      apply elem_of_cons. right. apply elem_of_app. by left.
    - eapply Forall_impl; [apply IHl; [lia | exact Hall]|].
      intros e [He He']. split; [exact He|].
      apply elem_of_cons in He' as [He'|He']; apply elem_of_cons;
        [by left | right; apply elem_of_app; by right]. }
  assert (Hself : ∀ w l, sp (class_of w) = false →
            Forall (fun e => sp (class_of e) = false
                             ∧ class_of e ∈ class_of w :: l) [w]).
  { intros w l Hw. constructor; [|constructor].
    split; [exact Hw|]. apply elem_of_cons. by left. }
  destruct v as [c z|c s|c l|c len iter].
  - cbn in Hwf. apply negb_true_iff in Hwf. cbn [flattening visited].
    apply (Hself (Atom c z)). cbn.
    destruct (sp c) eqn:Hc; [|done]. destruct (Hsp c Hc). congruence.
  - cbn in Hwf. cbn [flattening visited].
    apply (Hself (Str c s)). cbn.
    destruct (sp c) eqn:Hc; [|done]. destruct (Hsp c Hc). congruence.
  - cbn in Hwf, Hv. cbn [flattening visited class_of].
    destruct (sp c) eqn:Hc.
    + apply Hitems; [lia | exact Hwf].
    + apply (Hself (Seq c l)). exact Hc.
  - destruct len as [m|e']; [|discriminate Hwf].
    destruct iter as [l|e]; [|discriminate Hwf].
    cbn in Hwf, Hv. apply andb_true_iff in Hwf as [_ Hwf].
    cbn [flattening visited class_of].
    destruct (sp c) eqn:Hc.
    + apply Hitems; [lia | exact Hwf].
    + apply (Hself (Obj c (Ok m) (Ok l))). exact Hc.
Qed.

Lemma known_in_register_all l g c :
  c ∈ l →
  c ∈ native_types (register_all l g) ∨ c ∈ sequence_types (register_all l g)
  ∨ cls_is_Sequence c = false.
Proof.
  intros Hc. pose proof (register_all_makes_known l g) as H.
  rewrite Forall_forall in H. by apply H.
Qed.

(** X4 — The result is flat.  On well-formed input the value returned is
    the canonical form of a list none of whose elements would be spliced:
    in the module state the call leaves, the class of each element is in
    [native_types] or is no [Sequence].  In particular no element is a
    tuple or a list while those classes are in [sequence_types] only. *)
Theorem normalize_index_result_is_flat v g fuel :
  well_formed v = true → globals_ok g = true → weight v ≤ fuel →
  ∃ l g',
    normalize_index fuel v g = Some (Ok (canonical l), g')
    ∧ Forall (fun e => class_of e ∈ native_types g'
                       ∨ cls_is_Sequence (class_of e) = false) l
    ∧ Forall (fun e => splices g' (class_of e) = false) l.
Proof.
  intros Hwf Hok Hfuel.
  pose proof (normalize_index_effect fuel v g (splices g) Hwf Hok
                (fun c => eq_refl) Hfuel) as H.
  set (g' := register_all (visited (splices g) v) g) in *.
  assert (Hev : evolves g g') by apply register_all_evolves.
  exists (flattening (splices g) v), g'. split; [exact H|].
  pose proof (flattening_kept (splices g) v Hwf
                (fun c => splices_globals_ok g c Hok)) as Hkept.
  split; (eapply Forall_impl; [exact Hkept|]); intros e [Hsp Hvis]; cbn beta.
  - pose proof (known_in_register_all _ g _ Hvis) as Hknown. fold g' in Hknown.
    rewrite <- (evolves_splices g g' _ Hev) in Hsp.
    destruct Hknown as [?|[Hs|?]]; auto.
    left. destruct (decide (class_of e ∈ native_types g')) as [?|Hn]; [done|].
    by rewrite splices_sequence in Hsp.
  - by rewrite (evolves_splices g g' _ Hev).
Qed.

Lemma normalize_index_result_is_flat_witness :
  let v := tuple [pylist [Seq Path_t [int 1]; Str Label_t "a"]; Atom Half_t 0] in
  well_formed v = true ∧ globals_ok initial_globals = true ∧ weight v ≤ 9
  ∧ ∃ l g',
      normalize_index 9 v initial_globals = Some (Ok (canonical l), g')
      ∧ Forall (fun e => class_of e ∈ native_types g'
                         ∨ cls_is_Sequence (class_of e) = false) l
      ∧ Forall (fun e => splices g' (class_of e) = false) l.
Proof.
  cbn zeta. split; [reflexivity|]. split; [reflexivity|].
  split; [vm_compute; lia|].
  apply normalize_index_result_is_flat;
    [reflexivity | reflexivity | vm_compute; lia].
Defined.

(** ** [flatten_tuple] *)

Lemma normalize_index_returns v g :
  globals_ok g = true →
  ∃ n, ∀ fuel, n ≤ fuel → is_Some (normalize_index fuel v g).
Proof.
  intros Hok. unfold normalize_index.
  destruct (decide (class_of v ∈ native_types g)) as [Hnat|Hnat];
    [by exists 0|].
  destruct (enter v g) as [f|e]; [|by exists 0].
  exists (S (remaining f)). intros fuel Hfuel.
  destruct (while_loop_terminates fuel f g Hok) as [[[f'|e] g'] ->];
    [lia|done..].
Qed.

Lemma canonical_cases l :
  (∃ e, l = [e] ∧ canonical l = e) ∨ (length l ≠ 1 ∧ canonical l = tuple l).
Proof. destruct l as [|a [|b l]]; cbn; eauto. Qed.

(** X5 — [flatten_tuple] on well-formed input.  When no element of the
    flattening is itself an instance of a tuple class, [flatten_tuple]
    returns the tuple of the flattened elements, whether there are none,
    one or several, and leaves the module state [normalize_index]
    leaves. *)
Theorem flatten_tuple_returns_flat_tuple it v g fuel :
  it tuple_t = true →
  well_formed v = true → globals_ok g = true → weight v ≤ fuel →
  forallb (fun e => negb (it (class_of e))) (flattening (splices g) v) = true →
  flatten_tuple it fuel v g
  = Some (Ok (tuple (flattening (splices g) v)),
          register_all (visited (splices g) v) g).
Proof.
  intros Hit Hwf Hok Hfuel Hleaves. unfold flatten_tuple.
  rewrite (normalize_index_effect fuel v g (splices g)) by done.
  destruct (flattening (splices g) v) as [|a [|b l]]; cbn in *.
  - by rewrite Hit.
  - rewrite andb_true_r in Hleaves. apply negb_true_iff in Hleaves.
    by rewrite Hleaves.
  - by rewrite Hit.
Qed.

Lemma flatten_tuple_returns_flat_tuple_witness :
  let v := pylist [tuple [Seq Path_t [int 7]]] in
  only_tuple tuple_t = true
  ∧ well_formed v = true ∧ globals_ok initial_globals = true ∧ weight v ≤ 5
  ∧ flatten_tuple only_tuple 5 v initial_globals
    = Some (Ok (tuple [int 7]), add_sequence Path_t initial_globals).
Proof.
  cbn zeta. split; [reflexivity|]. split; [reflexivity|].
  split; [reflexivity|]. split; [vm_compute; lia|].
  etrans.
  - apply (flatten_tuple_returns_flat_tuple only_tuple
             (pylist [tuple [Seq Path_t [int 7]]]) initial_globals 5);
      [reflexivity | reflexivity | reflexivity | vm_compute; lia
      | vm_compute; reflexivity].
  - vm_compute. reflexivity.
Defined.

(** X6 — [flatten_tuple] returns a tuple or raises.  From a module state
    whose [sequence_types] holds only [Sequence] classes that are not
    [str], [flatten_tuple] returns on every argument; what it returns is
    an instance of a tuple class, or else the exception that
    [normalize_index] raised, and the module state is the one
    [normalize_index] leaves. *)
Theorem flatten_tuple_returns_a_tuple it v g :
  it tuple_t = true → globals_ok g = true →
  ∃ n, ∀ fuel, n ≤ fuel →
    ∃ r g', flatten_tuple it fuel v g = Some (r, g')
      ∧ match r with
        | Ok t => it (class_of t) = true
                  ∧ ∃ w, normalize_index fuel v g = Some (Ok w, g')
                         ∧ (t = w ∨ t = tuple [w])
        | Raise e => normalize_index fuel v g = Some (Raise e, g')
        end.
Proof.
  intros Hit Hok. destruct (normalize_index_returns v g Hok) as [n Hn].
  exists n. intros fuel Hfuel. unfold flatten_tuple.
  destruct (Hn fuel Hfuel) as [[[w|e] g'] ->].
  - destruct (it (class_of w)) eqn:Hw.
    + exists (Ok w), g'. eauto 7.
    + exists (Ok (Seq tuple_t [w])), g'. cbn. eauto 7.
  - by exists (Raise e), g'.
Qed.

Lemma flatten_tuple_returns_a_tuple_witness :
  only_tuple tuple_t = true ∧ globals_ok initial_globals = true
  ∧ ∃ n, ∀ fuel, n ≤ fuel →
      ∃ r g', flatten_tuple only_tuple fuel (tuple [half; bad]) initial_globals
              = Some (r, g')
        ∧ match r with
          | Ok t => only_tuple (class_of t) = true
                    ∧ ∃ w, normalize_index fuel (tuple [half; bad])
                             initial_globals = Some (Ok w, g')
                           ∧ (t = w ∨ t = tuple [w])
          | Raise e => normalize_index fuel (tuple [half; bad]) initial_globals
                       = Some (Raise e, g')
          end.
Proof.
  split; [reflexivity|]. split; [reflexivity|].
  apply flatten_tuple_returns_a_tuple; reflexivity.
Defined.

Lemma flattening_tuple_singleton sp l :
  Forall (fun e => flattening sp e = [e]) l →
  canonical (flattening sp (tuple [canonical l]))
  = if sp tuple_t then canonical l else tuple [canonical l].
Proof.
  intros Hl. cbn. destruct (sp tuple_t); [|done].
  rewrite app_nil_r. by apply canonical_flattening_fixed.
Qed.

(** X7 — [normalize_index] after [flatten_tuple].  On well-formed input,
    with [tuple] spliced by the loop, normalising what [flatten_tuple]
    returned gives what [normalize_index] returns for the argument
    itself: the tuple that [flatten_tuple] puts around a single element
    is taken off again. *)
Theorem normalize_index_after_flatten_tuple it v g :
  it tuple_t = true → well_formed v = true → globals_ok g = true →
  splices g tuple_t = true →
  ∃ n w t g1 g2, ∀ fuel, n ≤ fuel →
    normalize_index fuel v g = Some (Ok w, g1)
    ∧ flatten_tuple it fuel v g = Some (Ok t, g1)
    ∧ normalize_index fuel t g1 = Some (Ok w, g2).
Proof.
  intros Hit Hwf Hok Htup.
  set (sp := splices g). set (w := canonical (flattening sp v)).
  set (g1 := register_all (visited sp v) g).
  assert (Hev : evolves g g1) by apply register_all_evolves.
  assert (Hok1 : globals_ok g1 = true) by by eapply evolves_globals_ok.
  assert (Hsp1 : ∀ c, splices g1 c = sp c).
  { intros c. by apply evolves_splices. }
  assert (Hwfw : well_formed w = true).
  { apply canonical_well_formed. by apply flattening_well_formed. }
  assert (Hfix : canonical (flattening sp w) = w).
  { apply canonical_flattening_fixed, flattening_fixed. }
  assert (H1 : ∀ fuel, weight v ≤ fuel →
                       normalize_index fuel v g = Some (Ok w, g1)).
  { intros fuel Hf. by apply normalize_index_effect. }
  destruct (it (class_of w)) eqn:Hw.
  - exists (weight v `max` weight w), w, w, g1, (register_all (visited sp w) g1).
    intros fuel Hfuel. split; [apply H1; lia|]. split.
    + unfold flatten_tuple. rewrite H1 by lia. by rewrite Hw.
    + rewrite (normalize_index_effect fuel w g1 sp) by (done || lia).
      by rewrite Hfix.
  - exists (weight v `max` S (weight w + 0)), w, (tuple [w]), g1,
      (register_all (visited sp (tuple [w])) g1).
    intros fuel Hfuel. split; [apply H1; lia|]. split.
    + unfold flatten_tuple. rewrite H1 by lia. by rewrite Hw.
    + rewrite (normalize_index_effect fuel (tuple [w]) g1 sp);
        [|cbn; by rewrite Hwfw|done|done|cbn; lia].
      assert (Htw : canonical (flattening sp (tuple [w]))
                    = if sp tuple_t then w else tuple [w]).
      { apply flattening_tuple_singleton, flattening_fixed. }
      rewrite Htw. unfold sp at 1. by rewrite Htup.
Qed.

Lemma normalize_index_after_flatten_tuple_witness :
  let v := tuple [pylist [int 7]] in
  only_tuple tuple_t = true ∧ well_formed v = true
  ∧ globals_ok initial_globals = true
  ∧ splices initial_globals tuple_t = true
  ∧ ∃ n w t g1 g2, ∀ fuel, n ≤ fuel →
      normalize_index fuel v initial_globals = Some (Ok w, g1)
      ∧ flatten_tuple only_tuple fuel v initial_globals = Some (Ok t, g1)
      ∧ normalize_index fuel t g1 = Some (Ok w, g2).
Proof.
  cbn zeta. split; [reflexivity|]. split; [reflexivity|].
  split; [reflexivity|]. split; [reflexivity|].
  apply normalize_index_after_flatten_tuple; reflexivity.
Defined.

(** X8 — [flatten_tuple] is idempotent.  On well-formed input, applying
    [flatten_tuple] to what it returned returns the same tuple, whether
    [tuple] is in [sequence_types], in [native_types] or in neither. *)
Theorem flatten_tuple_idempotent it v g :
  it tuple_t = true → well_formed v = true → globals_ok g = true →
  ∃ n t g1 g2, ∀ fuel, n ≤ fuel →
    flatten_tuple it fuel v g = Some (Ok t, g1)
    ∧ flatten_tuple it fuel t g1 = Some (Ok t, g2).
Proof.
  intros Hit Hwf Hok.
  set (sp := splices g). set (w := canonical (flattening sp v)).
  set (g1 := register_all (visited sp v) g).
  assert (Hev : evolves g g1) by apply register_all_evolves.
  assert (Hok1 : globals_ok g1 = true) by by eapply evolves_globals_ok.
  assert (Hsp1 : ∀ c, splices g1 c = sp c).
  { intros c. by apply evolves_splices. }
  assert (Hwfw : well_formed w = true).
  { apply canonical_well_formed. by apply flattening_well_formed. }
  assert (Hfix : canonical (flattening sp w) = w).
  { apply canonical_flattening_fixed, flattening_fixed. }
  assert (H1 : ∀ fuel, weight v ≤ fuel →
                       normalize_index fuel v g = Some (Ok w, g1)).
  { intros fuel Hf. by apply normalize_index_effect. }
  destruct (it (class_of w)) eqn:Hw.
  - exists (weight v `max` weight w), w, g1, (register_all (visited sp w) g1).
    intros fuel Hfuel. split.
    + unfold flatten_tuple. rewrite H1 by lia. by rewrite Hw.
    + unfold flatten_tuple.
      rewrite (normalize_index_effect fuel w g1 sp) by (done || lia).
      by rewrite Hfix, Hw.
  - exists (weight v `max` S (weight w + 0)), (tuple [w]), g1,
      (register_all (visited sp (tuple [w])) g1).
    intros fuel Hfuel. split.
    + unfold flatten_tuple. rewrite H1 by lia. by rewrite Hw.
    + unfold flatten_tuple.
      rewrite (normalize_index_effect fuel (tuple [w]) g1 sp);
        [|cbn; by rewrite Hwfw|done|done|cbn; lia].
      assert (Htw : canonical (flattening sp (tuple [w]))
                    = if sp tuple_t then w else tuple [w]).
      { apply flattening_tuple_singleton, flattening_fixed. }
      rewrite Htw. destruct (sp tuple_t).
      * by rewrite Hw.
      * cbn. by rewrite Hit.
Qed.

Lemma flatten_tuple_idempotent_witness :
  let v := tuple [pylist [int 7]] in
  only_tuple tuple_t = true ∧ well_formed v = true
  ∧ globals_ok initial_globals = true
  ∧ ∃ n t g1 g2, ∀ fuel, n ≤ fuel →
      flatten_tuple only_tuple fuel v initial_globals = Some (Ok t, g1)
      ∧ flatten_tuple only_tuple fuel t g1 = Some (Ok t, g2).
Proof.
  cbn zeta. split; [reflexivity|]. split; [reflexivity|].
  split; [reflexivity|].
  apply flatten_tuple_idempotent; reflexivity.
Defined.

(** ** Grouping and container classes *)

Lemma forallb_well_formed_app (l k : list value) :
  forallb well_formed (l ++ k) = true ↔
  forallb well_formed l = true ∧ forallb well_formed k = true.
Proof. rewrite forallb_app. apply andb_true_iff. Qed.

(** X9 — Grouping does not matter.  On well-formed input, putting a run
    of neighbouring elements of a tuple into a container of their own (a
    tuple, a list, an instance of any class the loop splices) does not
    change the value [normalize_index] returns: [(a, (b, c), d)] and
    [(a, b, c, d)] normalise to the same key. *)
Theorem normalize_index_ignores_grouping g c l1 l2 l3 fuel :
  well_formed (tuple (l1 ++ Seq c l2 :: l3)) = true →
  globals_ok g = true →
  splices g tuple_t = true → splices g c = true →
  weight (tuple (l1 ++ Seq c l2 :: l3)) ≤ fuel →
  ∃ w g1 g2,
    normalize_index fuel (tuple (l1 ++ Seq c l2 :: l3)) g = Some (Ok w, g1)
    ∧ normalize_index fuel (tuple (l1 ++ l2 ++ l3)) g = Some (Ok w, g2).
Proof.
  intros Hwf0 Hok Htup Hc Hfuel. pose proof Hwf0 as Hwf.
  cbn [well_formed tuple] in Hwf.
  apply forallb_well_formed_app in Hwf as [Hwf1 Hwf23].
  cbn [forallb well_formed] in Hwf23.
  apply andb_true_iff in Hwf23 as [Hwf2 Hwf3].
  assert (Hwf' : well_formed (tuple (l1 ++ l2 ++ l3)) = true).
  { cbn [well_formed tuple]. by rewrite !forallb_well_formed_app. }
  assert (Hw : weight (tuple (l1 ++ l2 ++ l3))
               ≤ weight (tuple (l1 ++ Seq c l2 :: l3))).
  { cbn [weight tuple]. rewrite !sum_list_with_app. cbn. lia. }
  eexists _, _, _. split.
  - apply (normalize_index_effect fuel _ g (splices g)); done.
  - rewrite (normalize_index_effect fuel _ g (splices g)) by (done || lia).
    do 3 f_equal. cbn [flattening tuple]. rewrite Htup.
    rewrite !flat_map_app. cbn [flat_map flattening]. by rewrite Hc.
Qed.

Lemma normalize_index_ignores_grouping_witness :
  well_formed (tuple ([int 1] ++ Seq list_t [int 2; tuple [int 3]] :: [int 4]))
  = true
  ∧ ∃ w g1 g2,
      normalize_index 9
        (tuple ([int 1] ++ Seq list_t [int 2; tuple [int 3]] :: [int 4]))
        initial_globals = Some (Ok w, g1)
      ∧ normalize_index 9 (tuple ([int 1] ++ [int 2; tuple [int 3]] ++ [int 4]))
          initial_globals = Some (Ok w, g2).
Proof.
  split; [reflexivity|].
  apply normalize_index_ignores_grouping;
    [reflexivity | reflexivity | reflexivity | reflexivity | vm_compute; lia].
Defined.

(** X10 — The class of the container does not matter.  On well-formed
    items, two containers of the same items whose classes the loop both
    splices (a list and a tuple, say) normalise to the same value. *)
Theorem normalize_index_ignores_container_class g c1 c2 l fuel :
  forallb well_formed l = true → globals_ok g = true →
  splices g c1 = true → splices g c2 = true →
  weight (Seq c1 l) ≤ fuel →
  ∃ w g1 g2,
    normalize_index fuel (Seq c1 l) g = Some (Ok w, g1)
    ∧ normalize_index fuel (Seq c2 l) g = Some (Ok w, g2).
Proof.
  intros Hwf Hok Hc1 Hc2 Hfuel.
  eexists _, _, _. split.
  - apply (normalize_index_effect fuel _ g (splices g)); done.
  - rewrite (normalize_index_effect fuel _ g (splices g)) by done.
    do 3 f_equal. cbn [flattening]. by rewrite Hc1, Hc2.
Qed.

Lemma normalize_index_ignores_container_class_witness :
  forallb well_formed [int 1; tuple [int 2]] = true
  ∧ ∃ w g1 g2,
      normalize_index 9 (Seq list_t [int 1; tuple [int 2]]) initial_globals
      = Some (Ok w, g1)
      ∧ normalize_index 9 (Seq Path_t [int 1; tuple [int 2]]) initial_globals
        = Some (Ok w, g2).
Proof.
  split; [reflexivity|].
  apply normalize_index_ignores_container_class;
    [reflexivity | reflexivity | reflexivity | reflexivity | vm_compute; lia].
Defined.

(** ** A container that overstates its length *)

Lemma forallb_Forall_well_formed (l : list value) :
  forallb well_formed l = true → Forall (fun v => well_formed v = true) l.
Proof.
  intros H. apply Forall_forall. intros w Hw.
  rewrite forallb_forall in H. apply H. by apply list_elem_of_In.
Qed.

(** X11 — An overstated length.  Let an element of a tuple be a container
    that the loop splices and whose [len] answers more than the number of
    items it yields, everything else being well-formed.  The items are
    spliced in, the logical length [x_len] stays ahead of the tuple, and
    the call ends with [IndexError] once the cursor has passed the last
    element. *)
Theorem overstated_length_raises_IndexError g c n items pre post :
  forallb well_formed pre = true → forallb well_formed items = true →
  forallb well_formed post = true →
  globals_ok g = true →
  tuple_t ∉ native_types g → tuple_t ∈ sequence_types g →
  splices g c = true → length items < n →
  ∃ k g', ∀ fuel, k ≤ fuel →
    normalize_index fuel (tuple (pre ++ Obj c (Ok n) (Ok items) :: post)) g
    = Some (Raise IndexError, g').
Proof.
  intros Hpre%forallb_Forall_well_formed Hitems%forallb_Forall_well_formed
         Hpost%forallb_Forall_well_formed Hok Htn Hts Hc Hn.
  set (v := Obj c (Ok n) (Ok items)). set (sp := splices g).
  set (fp := flat_map (flattening sp) pre).
  set (g1 := register_all (flat_map (visited sp) pre) g).
  assert (Hev1 : evolves g g1) by apply register_all_evolves.
  assert (Hok1 : globals_ok g1 = true) by by eapply evolves_globals_ok.
  assert (Hsp1 : ∀ d, splices g1 d = sp d).
  { intros d. by apply evolves_splices. }
  set (g2 := register c g1).
  assert (Hok2 : globals_ok g2 = true).
  { eapply learns_globals_ok; [apply register_learns | done]. }
  assert (Hsp2 : ∀ d, splices g2 d = sp d).
  { intros d. rewrite <- Hsp1. apply learns_splices, register_learns. }
  set (k1 := length (flat_map (visited sp) pre)).
  set (k3 := length (flat_map (visited sp) (items ++ post))).
  set (f1 := {| x := fp ++ v :: post;
                x_len := (length (pre ++ v :: post) + length fp - length pre)%Z;
                i := length fp |}).
  set (f2 := {| x := fp ++ items ++ post;
                x_len := (x_len f1 + n - 1)%Z;
                i := length fp |}).
  (* the loop from the spliced frame *)
  assert (H3 : while_loop (k3 + 1) f2 g2
               = Some (Raise IndexError,
                       register_all (flat_map (visited sp) (items ++ post)) g2)).
  { pose proof (while_loop_scan_overlong f2 g2 sp 0) as H.
    cbn [x x_len i f2 f1] in H.
    rewrite drop_app_length in H. apply H; try done.
    - by apply Forall_app.
    - rewrite ?length_app. cbn [length]. rewrite ?length_app. lia.
    - rewrite ?length_app. lia. }
  (* the iteration at the lying element *)
  assert (H2 : while_loop (S (k3 + 1)) f1 g1
               = Some (Raise IndexError,
                       register_all (flat_map (visited sp) (items ++ post)) g2)).
  { rewrite while_loop_step.
    - rewrite (loop_body_splice_register f1 g1 v).
      + unfold splice. cbn [py_len py_tuple v x x_len i f1].
        rewrite take_app_length.
        replace (drop (S (length fp)) (fp ++ v :: post)) with post.
        * exact H3.
        * change (v :: post) with ([v] ++ post). rewrite app_assoc.
          symmetry. apply drop_app_length'. rewrite length_app. cbn. lia.
      + cbn [x i f1]. by rewrite list_lookup_middle.
      + cbn [class_of v]. by rewrite Hsp1.
    - cbn [x_len i f1]. rewrite ?length_app. cbn [length]. lia. }
  (* the scan of what precedes it *)
  assert (H1 : while_loop (k1 + S (k3 + 1))
                 {| x := pre ++ v :: post;
                    x_len := length (pre ++ v :: post); i := 0 |} g
               = Some (Raise IndexError,
                       register_all (flat_map (visited sp) (items ++ post)) g2)).
  { rewrite (while_loop_scan (sum_list_with weight pre) _ g sp pre
               (v :: post) (S (k3 + 1))); done. }
  exists (k1 + S (k3 + 1)),
    (register_all (flat_map (visited sp) (items ++ post)) g2).
  intros fuel Hfuel.
  apply (normalize_index_fuel_mono (k1 + S (k3 + 1))); [|done].
  unfold normalize_index, enter. cbn [class_of tuple py_tuple].
  rewrite decide_False, decide_True by done. by rewrite H1.
Qed.

Lemma overstated_length_raises_IndexError_witness :
  (Long_t ∉ native_types initial_globals)
  ∧ ∃ k g', ∀ fuel, k ≤ fuel →
      normalize_index fuel
        (tuple ([int 0] ++ Obj Long_t (Ok 3) (Ok [int 1; int 2]) :: [int 9]))
        initial_globals
      = Some (Raise IndexError, g').
Proof.
  split; [vm_compute; congruence|].
  apply overstated_length_raises_IndexError;
    [reflexivity | reflexivity | reflexivity | reflexivity
    | vm_compute; congruence | vm_compute; congruence | reflexivity
    | cbn; lia].
Defined.

(** X12 — The first call raises, the second returns.  Let the argument
    itself be a container of well-formed items whose class is in neither
    set (a [Sequence], no [str]) and whose [len] answers more than the
    number of items.  The first call wraps it, registers its class, splices
    it by [len] and ends with [IndexError]; a second call, finding the
    class in [sequence_types], takes the items by [tuple(x)] and [len] of
    that tuple, and returns their canonical flattening. *)
Theorem overstated_length_first_call_raises g c n items :
  forallb well_formed items = true → globals_ok g = true →
  c ∉ native_types g → c ∉ sequence_types g →
  cls_is_Sequence c = true → cls_is_str c = false →
  length items < n →
  ∃ k g1 g2, ∀ fuel, k ≤ fuel →
    normalize_index fuel (Obj c (Ok n) (Ok items)) g
    = Some (Raise IndexError, g1)
    ∧ normalize_index fuel (Obj c (Ok n) (Ok items)) g1
      = Some (Ok (canonical (flat_map (flattening (splices g)) items)), g2).
Proof.
  intros Hitems%forallb_Forall_well_formed Hok Hcn Hcs HS Hstr Hn.
  set (v := Obj c (Ok n) (Ok items)). set (sp := splices g).
  assert (Hspc : sp c = true).
  { unfold sp, splices. rewrite bool_decide_eq_true_2 by done.
    by rewrite HS, Hstr, orb_true_r. }
  set (g0 := register c g).
  assert (Hg0 : g0 = add_sequence c g).
  { unfold g0, register. by rewrite !decide_False, HS, Hstr by done. }
  assert (Hok0 : globals_ok g0 = true).
  { eapply learns_globals_ok; [apply register_learns | done]. }
  assert (Hsp0 : ∀ d, splices g0 d = sp d).
  { intros d. apply learns_splices, register_learns. }
  set (kv := length (flat_map (visited sp) items)).
  set (g1 := register_all (flat_map (visited sp) items) g0).
  assert (Hev1 : evolves g0 g1) by apply register_all_evolves.
  assert (Hok1 : globals_ok g1 = true) by by eapply evolves_globals_ok.
  assert (Hsp1 : ∀ d, splices g1 d = sp d).
  { intros d. rewrite <- Hsp0. by apply evolves_splices. }
  destruct (evolves_stays_sequence g0 g1 c Hev1) as [Hcs1 Hcn1].
  { rewrite Hg0. cbn. set_solver. }
  { by rewrite Hg0. }
  (* first call *)
  assert (H1 : while_loop (S (kv + 1)) {| x := [v]; x_len := 1%Z; i := 0 |} g
               = Some (Raise IndexError, g1)).
  { rewrite while_loop_step by (cbn; lia).
    rewrite (loop_body_splice_register _ g v) by done.
    unfold splice. cbn [py_len py_tuple v x x_len i take drop app].
    rewrite app_nil_r.
    pose proof (while_loop_scan_overlong
                  {| x := items; x_len := (1 + n - 1)%Z; i := 0 |}
                  g0 sp 0) as H.
    cbn [x x_len i] in H. rewrite drop_0 in H. apply H; try done; lia. }
  (* second call *)
  assert (H2 : ∀ m, while_loop (kv + m)
                      {| x := items; x_len := length items; i := 0 |} g1
                    = Some (Ok (scanned (flat_map (flattening sp) items)),
                            register_all (flat_map (visited sp) items) g1)).
  { intros m.
    pose proof (while_loop_scan_all
                  {| x := items; x_len := length items; i := 0 |}
                  g1 sp m) as H.
    cbn [x x_len i] in H. rewrite drop_0 in H. apply H; try done; lia. }
  exists (S (kv + 1)), g1, (register_all (flat_map (visited sp) items) g1).
  intros fuel Hfuel. split.
  - apply (normalize_index_fuel_mono (S (kv + 1))); [|done].
    unfold normalize_index, enter. cbn [class_of v].
    rewrite !decide_False by done.
    change (Z.of_nat (length [v])) with 1%Z. by rewrite H1.
  - apply (normalize_index_fuel_mono (kv + 0)); [|lia].
    unfold normalize_index, enter. cbn [class_of v py_tuple].
    rewrite decide_False, decide_True by done.
    by rewrite H2, finish_scanned.
Qed.

Lemma overstated_length_first_call_raises_witness :
  (Long_t ∉ native_types initial_globals)
  ∧ (Long_t ∉ sequence_types initial_globals)
  ∧ ∃ k g1 g2, ∀ fuel, k ≤ fuel →
      normalize_index fuel long initial_globals = Some (Raise IndexError, g1)
      ∧ normalize_index fuel long g1
        = Some (Ok (canonical (flat_map (flattening (splices initial_globals))
                                 [int 1; int 2])), g2).
Proof.
  assert (Hn : Long_t ∉ native_types initial_globals)
    by (vm_compute; congruence).
  assert (Hs : Long_t ∉ sequence_types initial_globals)
    by (vm_compute; congruence).
  split; [exact Hn|]. split; [exact Hs|].
  apply (overstated_length_first_call_raises initial_globals Long_t 3
           [int 1; int 2]);
    [reflexivity | reflexivity | exact Hn | exact Hs | reflexivity
    | reflexivity | cbn; lia].
Defined.

(** * setup.py *)

(** ** [read] *)

Lemma read_step strip fuel README :
  read strip (S fuel) README
  = if breaks strip (readline README).1
    then Some ((readline README).1 +:+ String.concat "" (readline README).2)
    else read strip fuel (readline README).2.
Proof.
  cbn [read]. unfold breaks. destruct (readline README) as [line rest]. cbn.
  destruct (contains "COIN-OR" line); [done|]. cbn.
  by destruct (negb (String.eqb (strip line) "") && negb (contains "[![" line)).
Qed.

(** X13 — What [read] returns.  When the file begins with lines that are
    blank or carry a badge and do not mention COIN-OR, followed by a line
    that mentions COIN-OR or is ordinary text, [read] returns the file
    from that line on, unchanged, and nothing of the lines before it. *)
Theorem read_returns_from_first_break strip skipped line rest fuel :
  Forall (fun l => breaks strip l = false) skipped →
  breaks strip line = true →
  length skipped < fuel →
  read strip fuel (skipped ++ line :: rest)
  = Some (line +:+ String.concat "" rest).
Proof.
  intros Hskip Hline. revert fuel.
  induction Hskip as [|l skipped Hl _ IH]; intros fuel Hfuel.
  - destruct fuel as [|fuel]; [cbn in Hfuel; lia|].
    rewrite read_step. cbn. by rewrite Hline.
  - destruct fuel as [|fuel]; [cbn in Hfuel; lia|].
    rewrite read_step. cbn [readline app fst snd]. rewrite Hl.
    apply IH. cbn in Hfuel. lia.
Qed.

Lemma read_returns_from_first_break_witness :
  let skipped := ["[![build](a)](b)
"; "
"; "[![cov](c)](d)
"] in
  let line := "[![COIN-OR](e)](f)
" in
  Forall (fun l => breaks ascii_strip l = false) skipped
  ∧ breaks ascii_strip line = true
  ∧ read ascii_strip 4 (skipped ++ line :: ["Pyomo
"; "=====
"])
    = Some (line +:+ String.concat "" ["Pyomo
"; "=====
"]).
Proof.
  cbn zeta.
  assert (Hs : Forall (fun l => breaks ascii_strip l = false)
                 ["[![build](a)](b)
"; "
"; "[![cov](c)](d)
"]) by (repeat constructor).
  split; [exact Hs|]. split; [reflexivity|].
  apply (read_returns_from_first_break ascii_strip _ _ _ 4 Hs);
    [reflexivity | cbn; lia].
Defined.

(** X14 — When [read] does not return.  At the end of the file
    [readline] keeps answering the empty string, which neither [break]
    accepts; so on a file all of whose lines are blank or badges without
    COIN-OR (the empty file included) the loop never ends. *)
Theorem read_never_returns_without_break strip README fuel :
  strip "" = "" →
  Forall (fun l => breaks strip l = false) README →
  read strip fuel README = None.
Proof.
  intros Hstrip. revert README.
  induction fuel as [|fuel IH]; intros README Hall; [done|].
  rewrite read_step. destruct Hall as [|l README Hl Hall]; cbn [readline fst snd].
  - unfold breaks. rewrite Hstrip. cbn. by apply IH.
  - rewrite Hl. by apply IH.
Qed.

Lemma read_never_returns_without_break_witness :
  ascii_strip "" = ""
  ∧ read ascii_strip 50 ["[![build](a)](b)
"; "
"] = None.
Proof.
  split; [reflexivity|].
  apply read_never_returns_without_break; [reflexivity|].
  by repeat constructor.
Defined.

(** ** [check_config_arg] and [using_cython] *)

Lemma remove_first_split name l :
  name ∈ l →
  ∃ l1 l2, l = l1 ++ name :: l2 ∧ (name ∉ l1) ∧ remove_first name l = l1 ++ l2.
Proof.
  induction l as [|a l IH]; intros Hin; [by apply elem_of_nil in Hin|].
  cbn. destruct (decide (a = name)) as [->|Hne].
  - exists [], l. split; [done|]. split; [apply not_elem_of_nil | done].
  - apply elem_of_cons in Hin as [?|Hin]; [congruence|].
    destruct (IH Hin) as (l1 & l2 & -> & Hl1 & ->).
    exists (a :: l1), l2. split; [done|]. split; [|done].
    intros [?|?]%elem_of_cons; [congruence | done].
Qed.

Lemma remove_first_absent name l : name ∉ l → remove_first name l = l.
Proof.
  induction l as [|a l IH]; intros Hin; [done|]. cbn.
  rewrite decide_False; [|intros ->; apply Hin; by left].
  rewrite IH; [done|]. intros ?. apply Hin. by right.
Qed.

Lemma remove_first_other name other l :
  other ≠ name → other ∈ remove_first name l ↔ other ∈ l.
Proof.
  intros Hne. induction l as [|a l IH]; [done|]. cbn.
  destruct (decide (a = name)) as [->|Ha].
  - rewrite elem_of_cons. naive_solver.
  - rewrite !elem_of_cons, IH. done.
Qed.

Lemma filter_remove_first (P : string → Prop) `{∀ a, Decision (P a)} name l :
  ¬ P name → filter P (remove_first name l) = filter P l.
Proof.
  intros HP. induction l as [|a l IH]; [done|]. cbn [remove_first].
  destruct (decide (a = name)) as [->|Ha].
  - by rewrite filter_cons_False.
  - rewrite !filter_cons, IH. done.
Qed.

Lemma count_remove_first name l :
  length (filter (fun a => a = name) (remove_first name l))
  = length (filter (fun a => a = name) l) - 1.
Proof.
  induction l as [|a l IH]; [done|]. cbn [remove_first].
  destruct (decide (a = name)) as [->|Ha].
  - rewrite filter_cons_True by done. cbn. lia.
  - rewrite !filter_cons_False by done. exact IH.
Qed.

(** X15 — [check_config_arg].  A name that is in [sys.argv] is reported
    and its first occurrence, and only that one, is taken out of
    [sys.argv]; a name that is only among the words of [PYOMO_SETUP_ARGS]
    is reported and [sys.argv] is left alone; any other name is not
    reported. *)
Theorem check_config_arg_takes_first_occurrence env_args name argv :
  (name ∈ argv →
   ∃ l1 l2, argv = l1 ++ name :: l2 ∧ (name ∉ l1)
            ∧ check_config_arg env_args name argv = (true, l1 ++ l2))
  ∧ (name ∉ argv →
     check_config_arg env_args name argv
     = (bool_decide (name ∈ env_args), argv)).
Proof.
  unfold check_config_arg. split; intros Hin.
  - rewrite decide_True by done.
    destruct (remove_first_split name argv Hin) as (l1 & l2 & ? & ? & ->).
    by exists l1, l2.
  - rewrite decide_False by done.
    destruct (decide (name ∈ env_args)) as [He|He].
    + by rewrite bool_decide_eq_true_2.
    + by rewrite bool_decide_eq_false_2.
Qed.

Lemma check_config_arg_takes_first_occurrence_witness :
  "--with-cython" ∈ ["setup.py"; "--with-cython"; "build"; "--with-cython"]
  ∧ ∃ l1 l2,
      ["setup.py"; "--with-cython"; "build"; "--with-cython"]
      = l1 ++ "--with-cython" :: l2
      ∧ ("--with-cython" ∉ l1)
      ∧ check_config_arg [] "--with-cython"
          ["setup.py"; "--with-cython"; "build"; "--with-cython"]
        = (true, l1 ++ l2).
Proof.
  assert (Hin : "--with-cython"
                ∈ ["setup.py"; "--with-cython"; "build"; "--with-cython"])
    by (apply elem_of_cons; right; apply elem_of_cons; by left).
  split; [exact Hin|].
  exact (proj1 (check_config_arg_takes_first_occurrence [] _ _) Hin).
Defined.

Lemma check_config_arg_reports env_args name argv :
  (check_config_arg env_args name argv).1
  = bool_decide (name ∈ argv ∨ name ∈ env_args).
Proof.
  unfold check_config_arg.
  destruct (decide (name ∈ argv)) as [Ha|Ha]; cbn.
  { by rewrite bool_decide_eq_true_2 by auto. }
  destruct (decide (name ∈ env_args)) as [He|He]; cbn.
  - by rewrite bool_decide_eq_true_2 by auto.
  - rewrite bool_decide_eq_false_2; [done|]. by intros [?|?].
Qed.

Lemma check_config_arg_argv env_args name argv :
  (check_config_arg env_args name argv).2 = remove_first name argv.
Proof.
  unfold check_config_arg.
  destruct (decide (name ∈ argv)) as [Ha|Ha]; cbn; [done|].
  rewrite remove_first_absent by done. by destruct (decide (name ∈ env_args)).
Qed.

Lemma choose_cython_unfold version env_args argv :
  choose_cython version env_args argv
  = (if (check_config_arg env_args "--without-cython"
           (remove_first "--with-cython" argv)).1
     then CythonOff
     else if (check_config_arg env_args "--with-cython" argv).1
          then CythonRequired
          else if negb (names_build_command argv) then CythonOff
               else if before_3_11 version then CythonAutomatic
                    else CythonOff,
     remove_first "--without-cython" (remove_first "--with-cython" argv)).
Proof.
  unfold choose_cython.
  rewrite <- (check_config_arg_argv env_args "--with-cython" argv).
  destruct (check_config_arg env_args "--with-cython" argv) as [w argv1].
  cbn [fst snd].
  rewrite <- (check_config_arg_argv env_args "--without-cython" argv1).
  by destruct (check_config_arg env_args "--without-cython" argv1)
    as [wo argv2].
Qed.

(** X16 — Which option wins.  [--without-cython], in [sys.argv] or in
    [PYOMO_SETUP_ARGS], switches Cython off whatever else is given;
    otherwise [--with-cython] makes it required; otherwise it is automatic
    exactly when an argument begins with [build], [install], [bdist] or
    [wheel] and the interpreter is older than 3.11.  Taking
    [--with-cython] out of [sys.argv] first does not hide
    [--without-cython]. *)
Theorem choose_cython_precedence version env_args argv :
  let without := "--without-cython" ∈ argv ∨ "--without-cython" ∈ env_args in
  let with_ := "--with-cython" ∈ argv ∨ "--with-cython" ∈ env_args in
  (without → (choose_cython version env_args argv).1 = CythonOff)
  ∧ (¬ without → with_ →
     (choose_cython version env_args argv).1 = CythonRequired)
  ∧ (¬ without → ¬ with_ →
     (choose_cython version env_args argv).1
     = if names_build_command argv && before_3_11 version
       then CythonAutomatic else CythonOff).
Proof.
  cbn zeta. rewrite choose_cython_unfold. cbn [fst].
  rewrite !check_config_arg_reports.
  assert (Hsame : "--without-cython" ∈ remove_first "--with-cython" argv
                  ↔ "--without-cython" ∈ argv).
  { by apply remove_first_other. }
  split; [|split].
  - intros Hwo. rewrite bool_decide_eq_true_2; [done|]. by rewrite Hsame.
  - intros Hwo Hw. rewrite bool_decide_eq_false_2 by (by rewrite Hsame).
    by rewrite bool_decide_eq_true_2.
  - intros Hwo Hw. rewrite bool_decide_eq_false_2 by (by rewrite Hsame).
    rewrite bool_decide_eq_false_2 by done.
    by destruct (names_build_command argv), (before_3_11 version).
Qed.

Lemma choose_cython_precedence_witness :
  ("--without-cython" ∈ ["setup.py"; "build_ext"; "--with-cython"]
   ∨ "--without-cython" ∈ ["--without-cython"])
  ∧ (choose_cython (3, 9) ["--without-cython"]
       ["setup.py"; "build_ext"; "--with-cython"]).1 = CythonOff.
Proof.
  assert (H : "--without-cython" ∈ ["setup.py"; "build_ext"; "--with-cython"]
              ∨ "--without-cython" ∈ ["--without-cython"])
    by (right; apply elem_of_cons; by left).
  split; [exact H|].
  exact (proj1 (choose_cython_precedence (3, 9) ["--without-cython"]
                  ["setup.py"; "build_ext"; "--with-cython"]) H).
Defined.

(** X17 — What is left in [sys.argv].  After the two calls every argument
    other than the two options is still in [sys.argv], in its place, and
    each option has lost one occurrence: an option given once is gone, an
    option given twice is still there once for [setup] to meet. *)
Theorem choose_cython_leaves_other_arguments version env_args argv :
  let argv' := (choose_cython version env_args argv).2 in
  filter (fun a => a ≠ "--with-cython" ∧ a ≠ "--without-cython") argv'
  = filter (fun a => a ≠ "--with-cython" ∧ a ≠ "--without-cython") argv
  ∧ length (filter (fun a => a = "--with-cython") argv')
    = length (filter (fun a => a = "--with-cython") argv) - 1
  ∧ length (filter (fun a => a = "--without-cython") argv')
    = length (filter (fun a => a = "--without-cython") argv) - 1.
Proof.
  cbn zeta. rewrite choose_cython_unfold. cbn [snd].
  split; [|split].
  - rewrite !filter_remove_first; [done|naive_solver..].
  - rewrite (filter_remove_first (fun a => a = "--with-cython")) by done.
    apply count_remove_first.
  - rewrite count_remove_first.
    by rewrite (filter_remove_first (fun a => a = "--without-cython")).
Qed.
